(** * RPCChannel.h: the ORC remote-procedure-call byte channel and its codecs

    A shallow embedding of
    [llvm/include/llvm/ExecutionEngine/Orc/RPCChannel.h]: the abstract byte
    channel, the four message-framing operations on its two mutexes, and the
    overloaded [serialize]/[deserialize] functions for integers, booleans,
    strings, tuples and vectors, followed by the properties proved of them.

    Conventions of the embedding.
    - A [std::error_code] is its integer value; [std::error_code()] is [0] and
      the contextual conversion to [bool] in [if (auto EC = ...)] is
      [value != 0].
    - A C++ function that takes the channel by reference returns the new
      channel next to its result; [deserialize], which also writes through a
      reference [T &V], takes the old [V] and returns the new one, on the
      failure paths too.
    - Memory is a list of bytes.  [reinterpret_cast<char *>(&V)] is the object
      representation of [V] in the byte order of the host.
    - A call written as a statement, whose value the caller does not use, is
      [let _ := ... in]: it is evaluated and its value dropped.
    - The data model is LP64: [unsigned] has 32 bits, [size_t] and
      [uint64_t] have 64.
    - Exceptions ([std::bad_alloc] or [std::length_error] from [resize],
      [std::system_error] from [lock]) are outside the embedding.
    - The two overloads for enumerations cast to and from the underlying
      integer type and call the integer overloads; they are not repeated
      here. *)

From Stdlib Require Import ZArith List Lia Bool.
From Stdlib Require Import Strings.Byte.
Import ListNotations.
Local Open Scope Z_scope.

(** ** Error codes *)

Definition error_code : Type := Z.

(** [std::error_code()] *)
Definition success : error_code := 0.

(** The [explicit operator bool] of [std::error_code]. *)
Definition failed (EC : error_code) : bool := negb (EC =? 0).

(** ** The byte stream interface

    [class RPCChannel] has three pure virtual members.  [readBytes C Size]
    gives the error code, the bytes the channel stored at [Dst] (in order,
    from [Dst[0]]) and the channel afterwards.  [appendBytes C Src] is given
    the [Size] bytes found at [Src]. *)

Class RPCChannel (Ch : Type) : Type := {
  readBytes : Ch -> Z -> error_code * list byte * Ch;
  appendBytes : Ch -> list byte -> error_code * Ch;
  send : Ch -> error_code * Ch
}.

(** ** Memory and machine integers *)

(** Conversion to [unsigned], the type of the [Size] parameters. *)
Definition to_unsigned (n : Z) : Z := n mod 2 ^ 32.

(** The [Size] bytes of memory that start at [Src]. *)
Definition range (Src : list byte) (Size : Z) : list byte :=
  firstn (Z.to_nat Size) Src.

(** Memory at [Dst] after a callee that was asked for [Size] bytes stored
    [data] there: it writes from the start and never past [Size]. *)
Definition store (Dst : list byte) (Size : Z) (data : list byte) : list byte :=
  let written := firstn (Z.to_nat Size) data in
  written ++ skipn (length written) Dst.

(** [std::string::resize] and [std::vector::resize]: keep the first [Count]
    elements, pad with value-initialised ones. *)
Definition resize {A : Type} (V : list A) (Count : Z) (init : A) : list A :=
  let n := Z.to_nat Count in
  firstn n V ++ repeat init (n - length V)%nat.

(** [size()] of a string, [ArrayRef] or vector. *)
Definition size {A : Type} (V : list A) : Z := Z.of_nat (length V).

Inductive IntTy : Type :=
| uint64_t | int64_t | uint32_t | int32_t
| uint16_t | int16_t | uint8_t | int8_t.

Definition sizeof (T : IntTy) : nat :=
  match T with
  | uint64_t | int64_t => 8
  | uint32_t | int32_t => 4
  | uint16_t | int16_t => 2
  | uint8_t | int8_t => 1
  end%nat.

Definition is_signed (T : IntTy) : bool :=
  match T with
  | int64_t | int32_t | int16_t | int8_t => true
  | _ => false
  end.

Definition bits (T : IntTy) : Z := 8 * Z.of_nat (sizeof T).

(** [V] is a value of type [T]. *)
Definition in_range (T : IntTy) (V : Z) : bool :=
  if is_signed T
  then (- 2 ^ (bits T - 1) <=? V) && (V <? 2 ^ (bits T - 1))
  else (0 <=? V) && (V <? 2 ^ bits T).

Definition byte_of_Z (z : Z) : byte :=
  match Byte.of_N (Z.to_N (z mod 256)) with
  | Some b => b
  | None => x00
  end.

Definition Z_of_byte (b : byte) : Z := Z.of_N (Byte.to_N b).

(** The [n] low-order bytes of [v] in two's complement, least significant
    first, and the unsigned number such bytes stand for. *)
Fixpoint little_endian (n : nat) (v : Z) : list byte :=
  match n with
  | O => []
  | S n' => byte_of_Z v :: little_endian n' (v / 256)
  end.

Fixpoint little_endian_value (bs : list byte) : Z :=
  match bs with
  | [] => 0
  | b :: bs' => Z_of_byte b + 256 * little_endian_value bs'
  end.

(** The wire format of the spec for an [n]-byte integer: most significant
    byte first. *)
Fixpoint big_endian (n : nat) (v : Z) : list byte :=
  match n with
  | O => []
  | S n' => byte_of_Z (v / 256 ^ Z.of_nat n') :: big_endian n' v
  end.

(** ** The encodable types

    The overloads of [serialize] and [deserialize] are selected by the static
    type of the argument.  [Shape] is the set of types they close over:
    the eight integer types, [bool], [std::string], [std::tuple<ArgTs...>]
    and [std::vector<T>]; [Pack] is a template parameter pack [Ts...].
    [Value T] is the set of C++ values of type [T] (an integer is further
    constrained by [in_range]). *)

Inductive Shape : Type :=
| SInt (T : IntTy)
| SBool
| SString
| STuple (ArgTs : Pack)
| SVector (T : Shape)
with Pack : Type :=
| PNil
| PCons (T : Shape) (Ts : Pack).

Scheme Shape_mutual := Induction for Shape Sort Prop
  with Pack_mutual := Induction for Pack Sort Prop.
Combined Scheme Shape_Pack_ind from Shape_mutual, Pack_mutual.

Fixpoint Value (T : Shape) : Type :=
  match T with
  | SInt _ => Z
  | SBool => bool
  | SString => list byte
  | STuple ArgTs => Values ArgTs
  | SVector T => list (Value T)
  end
with Values (Ts : Pack) : Type :=
  match Ts with
  | PNil => unit
  | PCons T Ts => (Value T * Values Ts)%type
  end.

(** [T()], the value-initialised object [resize] pads a vector with. *)
Fixpoint value_init (T : Shape) : Value T :=
  match T with
  | SInt _ => 0
  | SBool => false
  | SString => []
  | STuple ArgTs => values_init ArgTs
  | SVector _ => []
  end
with values_init (Ts : Pack) : Values Ts :=
  match Ts with
  | PNil => tt
  | PCons T Ts => (value_init T, values_init Ts)
  end.

Section Codec.

(** [sys::IsBigEndianHost] *)
Variable IsBigEndianHost : bool.

Context {Ch : Type} `{RPCChannel Ch}.

(** [reinterpret_cast<const char *>(&V)] for [V] of type [T], and the value
    of type [T] held by [sizeof(T)] bytes of memory. *)
Definition object_bytes (T : IntTy) (V : Z) : list byte :=
  let le := little_endian (sizeof T) V in
  if IsBigEndianHost then rev le else le.

Definition object_value (T : IntTy) (bs : list byte) : Z :=
  let u := little_endian_value (if IsBigEndianHost then rev bs else bs) in
  if is_signed T && (2 ^ (bits T - 1) <=? u) then u - 2 ^ bits T else u.

(** [sys::swapByteOrder]: the value whose bytes are those of [V] reversed. *)
Definition swapByteOrder (T : IntTy) (V : Z) : Z :=
  object_value T (rev (object_bytes T V)).

(** Modelled from the spec: [support::endian::byte_swap<T, support::big>] is
    declared in llvm/Support/Endian.h, which is not among the sources here.
    It is a function of its argument, which it takes by value, to the value
    converted to the named order ([support::big], the spec's "big-endian
    (most significant byte first)"): the argument itself on a big-endian
    host, the argument with its bytes reversed on a little-endian one.  It
    cannot change the caller's [V]. *)
Definition byte_swap_big (T : IntTy) (value : Z) : Z :=
  if IsBigEndianHost then value else swapByteOrder T value.

(** ** Integer primitives

    Both functions call [byte_swap<T, support::big>(V);] as a statement and
    use nothing of its value, so [V] is as it was: [serialize] appends the
    object representation of [V], and [deserialize] leaves in [V] what the
    bytes read stand for on the host. *)

Definition serialize_int (T : IntTy) (C : Ch) (V : Z) : error_code * Ch :=
  let _ := byte_swap_big T V in
  appendBytes C (range (object_bytes T V) (Z.of_nat (sizeof T))).

Definition deserialize_int (T : IntTy) (C : Ch) (V : Z)
  : error_code * Z * Ch :=
  let '(EC, data, C) := readBytes C (Z.of_nat (sizeof T)) in
  let V := object_value T (store (object_bytes T V) (Z.of_nat (sizeof T)) data) in
  if failed EC then (EC, V, C)
  else
    let _ := byte_swap_big T V in
    (success, V, C).

(** ** Booleans *)

Definition serialize_bool (C : Ch) (V : bool) : error_code * Ch :=
  let VN := if V then 1 else 0 in
  appendBytes C (range (object_bytes uint8_t VN) 1).

Definition deserialize_bool (C : Ch) (V : bool) : error_code * bool * Ch :=
  let VN := 0 in
  let '(EC, data, C) := readBytes C 1 in
  let VN := object_value uint8_t (store (object_bytes uint8_t VN) 1 data) in
  if failed EC then (EC, V, C)
  else (success, if negb (VN =? 0) then true else false, C).

(** ** Strings *)

(** [serialize(RPCChannel &, StringRef)]; [S.size()] is a [size_t] and is
    converted to the [unsigned] parameter of [appendBytes]. *)
Definition serialize_StringRef (C : Ch) (S : list byte) : error_code * Ch :=
  let '(EC, C) := serialize_int uint64_t C (size S) in
  if failed EC then (EC, C)
  else appendBytes C (range S (to_unsigned (size S))).

Definition serialize_string (C : Ch) (S : list byte) : error_code * Ch :=
  serialize_StringRef C S.

(** The local [uint64_t Count;] of the string deserializer is not
    initialised; [Count] is read only after a successful [deserialize], which
    has by then stored into all of its bytes. *)
Definition uninitialised : Z := 0.

Definition deserialize_string (C : Ch) (S : list byte)
  : error_code * list byte * Ch :=
  let Count := uninitialised in
  let '(EC, Count, C) := deserialize_int uint64_t C Count in
  if failed EC then (EC, S, C)
  else
    let S := resize S Count x00 in
    let '(EC, data, C) := readBytes C (to_unsigned Count) in
    (EC, store S (to_unsigned Count) data, C).

(** ** Sequences *)

Section Elements.

Context {A : Type}.
Variable serialize_elem : Ch -> A -> error_code * Ch.
Variable deserialize_elem : Ch -> A -> error_code * A * Ch.
(** [T()] *)
Variable init : A.

(** [for (const auto &E : A) if (auto EC = serialize(C, E)) return EC;] *)
Fixpoint serialize_elements (C : Ch) (A0 : list A) : error_code * Ch :=
  match A0 with
  | [] => (success, C)
  | E :: rest =>
      let '(EC, C) := serialize_elem C E in
      if failed EC then (EC, C) else serialize_elements C rest
  end.

Definition serialize_ArrayRef (C : Ch) (A0 : list A) : error_code * Ch :=
  let '(EC, C) := serialize_int uint64_t C (size A0) in
  if failed EC then (EC, C)
  else serialize_elements C A0.

Definition serialize_vector (C : Ch) (V : list A) : error_code * Ch :=
  serialize_ArrayRef C V.

(** [for (auto &E : V) if (auto EC = deserialize(C, E)) return EC;] *)
Fixpoint deserialize_elements (C : Ch) (V : list A)
  : error_code * list A * Ch :=
  match V with
  | [] => (success, [], C)
  | E :: rest =>
      let '(EC, E, C) := deserialize_elem C E in
      if failed EC then (EC, E :: rest, C)
      else
        let '(EC, rest, C) := deserialize_elements C rest in
        (EC, E :: rest, C)
  end.

Definition deserialize_vector (C : Ch) (V : list A)
  : error_code * list A * Ch :=
  let Count := 0 in
  let '(EC, Count, C) := deserialize_int uint64_t C Count in
  if failed EC then (EC, V, C)
  else
    let V := resize V Count init in
    deserialize_elements C V.

End Elements.

(** ** Overload resolution, tuples and the variadic composers

    [serialize T] is the overload of [serialize] chosen for an argument of
    static type [T]; [serializeSeq Ts C Args] is
    [serializeSeq(C, Arg, Args...)] at the pack [Ts].  A tuple goes through
    [serializeTupleHelper], which expands [std::get<Is>(V)...] into the
    argument list of [serializeSeq]. *)

Fixpoint serialize (T : Shape) : Ch -> Value T -> error_code * Ch :=
  match T with
  | SInt T => serialize_int T
  | SBool => serialize_bool
  | SString => serialize_string
  | STuple ArgTs => fun C V => serializeSeq ArgTs C V
  | SVector T => serialize_vector (serialize T)
  end
with serializeSeq (Ts : Pack) : Ch -> Values Ts -> error_code * Ch :=
  match Ts with
  | PNil => fun C _ => (success, C)
  | PCons T Ts => fun C Args =>
      let '(Arg, Args) := Args in
      let '(EC, C) := serialize T C Arg in
      if failed EC then (EC, C) else serializeSeq Ts C Args
  end.

Definition serializeTupleHelper (ArgTs : Pack) (C : Ch) (V : Values ArgTs)
  : error_code * Ch :=
  serializeSeq ArgTs C V.

Fixpoint deserialize (T : Shape) : Ch -> Value T -> error_code * Value T * Ch :=
  match T with
  | SInt T => deserialize_int T
  | SBool => deserialize_bool
  | SString => deserialize_string
  | STuple ArgTs => fun C V => deserializeSeq ArgTs C V
  | SVector T => deserialize_vector (deserialize T) (value_init T)
  end
with deserializeSeq (Ts : Pack)
  : Ch -> Values Ts -> error_code * Values Ts * Ch :=
  match Ts with
  | PNil => fun C Args => (success, Args, C)
  | PCons T Ts => fun C Args =>
      let '(Arg, Args) := Args in
      let '(EC, Arg, C) := deserialize T C Arg in
      if failed EC then (EC, (Arg, Args), C)
      else
        let '(EC, Args, C) := deserializeSeq Ts C Args in
        (EC, (Arg, Args), C)
  end.

Definition deserializeTupleHelper (ArgTs : Pack) (C : Ch) (V : Values ArgTs)
  : error_code * Values ArgTs * Ch :=
  deserializeSeq ArgTs C V.

End Codec.

(** ** The codec calls of a composite operation

    What the spec says of the composers is said of the calls they make:
    [serializeSeq(C, Args...)] has one call [serialize(C, Arg)] to make for
    each argument, in the order of the argument list, and the loop of the
    vector deserializer one call [deserialize(C, E)] for each element.  A
    call is seen here from the composer's side: it takes the channel and
    gives an error code and the channel it leaves. *)

Section Calls.

Variable IsBigEndianHost : bool.
Context {Ch : Type} `{RPCChannel Ch}.

Definition codec_call : Type := Ch -> error_code * Ch.

(** The error code and the channel of a [deserialize] result. *)
Definition outcome {A : Type} (r : error_code * A * Ch) : error_code * Ch :=
  (fst (fst r), snd r).

Fixpoint serialize_calls (Ts : Pack) : Values Ts -> list codec_call :=
  match Ts with
  | PNil => fun _ => []
  | PCons T Ts => fun Args =>
      (fun C => serialize IsBigEndianHost T C (fst Args))
        :: serialize_calls Ts (snd Args)
  end.

Fixpoint deserialize_calls (Ts : Pack) : Values Ts -> list codec_call :=
  match Ts with
  | PNil => fun _ => []
  | PCons T Ts => fun Args =>
      (fun C => outcome (deserialize IsBigEndianHost T C (fst Args)))
        :: deserialize_calls Ts (snd Args)
  end.

Definition element_calls (T : Shape) (V : list (Value T)) : list codec_call :=
  map (fun E C => outcome (deserialize IsBigEndianHost T C E)) V.

(** The channel after the calls were made one after the other, left to
    right, and every one of them returned success. *)
Fixpoint all_succeed (calls : list codec_call) (C : Ch) : option Ch :=
  match calls with
  | [] => Some C
  | f :: rest =>
      let '(EC, C) := f C in
      if failed EC then None else all_succeed rest C
  end.

(** Left to right and fail-fast, as the spec words it: make the calls in
    order, stop at the first error and return it, succeed when there is
    none. *)
Fixpoint first_failure (calls : list codec_call) (C : Ch) : error_code * Ch :=
  match calls with
  | [] => (success, C)
  | f :: rest =>
      let '(EC, C) := f C in
      if failed EC then (EC, C) else first_failure rest C
  end.

(** The arguments of a pack as a list, each with its static type. *)
Fixpoint arguments (Ts : Pack) : Values Ts -> list {T : Shape & Value T} :=
  match Ts with
  | PNil => fun _ => []
  | PCons T Ts => fun Args =>
      existT Value T (fst Args) :: arguments Ts (snd Args)
  end.

End Calls.

(** ** An in-memory transport

    A channel whose stream is a queue of bytes held in memory: [appendBytes]
    adds to the back, [readBytes] takes [Size] bytes from the front or, when
    fewer are there, fails and leaves the queue as it is. *)

(** Modelled from the spec: the error codes of OrcError.h are not among the
    sources; [ChannelError] stands for "the underlying transport could not
    complete a read, append, or flush", a code whose value is not zero. *)
Definition ChannelError : error_code := 1.

Record QueueChannel : Type := { Pending : list byte }.

Definition Queue_readBytes (C : QueueChannel) (Size : Z)
  : error_code * list byte * QueueChannel :=
  if Size <=? size (Pending C)
  then (success, range (Pending C) Size,
        {| Pending := skipn (Z.to_nat Size) (Pending C) |})
  else (ChannelError, [], C).

Definition Queue_appendBytes (C : QueueChannel) (Src : list byte)
  : error_code * QueueChannel :=
  (success, {| Pending := Pending C ++ Src |}).

Definition Queue_send (C : QueueChannel) : error_code * QueueChannel :=
  (success, C).

#[export] Instance QueueChannel_RPCChannel : RPCChannel QueueChannel := {
  readBytes := Queue_readBytes;
  appendBytes := Queue_appendBytes;
  send := Queue_send
}.

(** A transport that can refuse data: a queue with room for [Capacity]
    bytes.  [appendBytes] fails, and appends nothing, when the bytes do not
    fit. *)
Record BoundedChannel : Type := { Stream : list byte; Capacity : Z }.

Definition Bounded_readBytes (C : BoundedChannel) (Size : Z)
  : error_code * list byte * BoundedChannel :=
  if Size <=? size (Stream C)
  then (success, range (Stream C) Size,
        {| Stream := skipn (Z.to_nat Size) (Stream C);
           Capacity := Capacity C |})
  else (ChannelError, [], C).

Definition Bounded_appendBytes (C : BoundedChannel) (Src : list byte)
  : error_code * BoundedChannel :=
  if size (Stream C) + size Src <=? Capacity C
  then (success, {| Stream := Stream C ++ Src; Capacity := Capacity C |})
  else (ChannelError, C).

Definition Bounded_send (C : BoundedChannel) : error_code * BoundedChannel :=
  (success, C).

#[export] Instance BoundedChannel_RPCChannel : RPCChannel BoundedChannel := {
  readBytes := Bounded_readBytes;
  appendBytes := Bounded_appendBytes;
  send := Bounded_send
}.

(** A channel that keeps a record of its reads: it behaves as the channel
    [Inner] and notes the error code of each [readBytes] call, in order. *)
Record Recorded (Ch : Type) : Type := { Inner : Ch; ReadLog : list error_code }.

Arguments Inner {Ch} _.
Arguments ReadLog {Ch} _.

Section Recording.

Context {Ch : Type} `{RPCChannel Ch}.

Definition Recorded_readBytes (C : Recorded Ch) (Size : Z)
  : error_code * list byte * Recorded Ch :=
  let '(EC, data, C') := readBytes (Inner C) Size in
  (EC, data, {| Inner := C'; ReadLog := ReadLog C ++ [EC] |}).

Definition Recorded_appendBytes (C : Recorded Ch) (Src : list byte)
  : error_code * Recorded Ch :=
  let '(EC, C') := appendBytes (Inner C) Src in
  (EC, {| Inner := C'; ReadLog := ReadLog C |}).

Definition Recorded_send (C : Recorded Ch) : error_code * Recorded Ch :=
  let '(EC, C') := send (Inner C) in
  (EC, {| Inner := C'; ReadLog := ReadLog C |}).

#[export] Instance Recorded_RPCChannel : RPCChannel (Recorded Ch) := {
  readBytes := Recorded_readBytes;
  appendBytes := Recorded_appendBytes;
  send := Recorded_send
}.

(** The reads noted in [l] account for the result [EC] of an operation:
    when [EC] is a failure, every read succeeded but the last, which
    returned [EC]; when it is not, every read succeeded. *)
Definition first_error_is (EC : error_code) (l : list error_code) : Prop :=
  if failed EC
  then exists ok, l = ok ++ [EC] /\ Forall (fun e => failed e = false) ok
  else Forall (fun e => failed e = false) l.

(** A result on the recording channel without the record. *)
Definition erase {A : Type} (r : error_code * A * Recorded Ch)
  : error_code * A * Ch :=
  (fst (fst r), snd (fst r), Inner (snd r)).

(** The reads a call with result [r] added to the record of [C] all
    succeeded, except that the last one returned the error code of the call
    when the call failed. *)
Definition adds_reads {A : Type} (C : Recorded Ch)
  (r : error_code * A * Recorded Ch) : Prop :=
  exists l, ReadLog (snd r) = ReadLog C ++ l /\ first_error_is (fst (fst r)) l.

End Recording.

(** A vector of tuples of sequences, for the examples. *)
Definition nested_example : Shape :=
  SVector (STuple (PCons (SVector (SInt int8_t))
                     (PCons SString (PCons (SInt uint64_t) PNil)))).

(** The bytes [serialize] puts on an empty queue, and the value
    [deserialize] builds in [V0] (with its error code) from a queue that
    holds [bs]. *)
Definition encode (IsBigEndianHost : bool) (T : Shape) (V : Value T)
  : list byte :=
  Pending (snd (serialize IsBigEndianHost T {| Pending := [] |} V)).

Definition encodeSeq (IsBigEndianHost : bool) (Ts : Pack) (Args : Values Ts)
  : list byte :=
  Pending (snd (serializeSeq IsBigEndianHost Ts {| Pending := [] |} Args)).

Definition decode (IsBigEndianHost : bool) (T : Shape) (V0 : Value T)
  (bs : list byte) : error_code * Value T :=
  fst (deserialize IsBigEndianHost T {| Pending := bs |} V0).

(** ** Values

    [within limit T V]: [V] is a value of type [T], that is, its integers are
    in the range of their types and its vectors have a [size()] that fits
    [size_t], and each of its strings has fewer than [limit] bytes.  Every
    [std::string] has fewer than [2 ^ 64]. *)

Fixpoint within (limit : Z) (T : Shape) : Value T -> bool :=
  match T with
  | SInt T => in_range T
  | SBool => fun _ => true
  | SString => fun S => size S <? limit
  | STuple ArgTs => all_within limit ArgTs
  | SVector T => fun V => (size V <? 2 ^ 64) && forallb (within limit T) V
  end
with all_within (limit : Z) (Ts : Pack) : Values Ts -> bool :=
  match Ts with
  | PNil => fun _ => true
  | PCons T Ts => fun Args =>
      within limit T (fst Args) && all_within limit Ts (snd Args)
  end.

Definition is_value (T : Shape) (V : Value T) : bool := within (2 ^ 64) T V.

(** ** Enumerations

    The overloads for an enumeration [T] go through its underlying integer
    type: [serialize] casts [V] to it, [deserialize] reads a local [Tmp] of
    that type, which is not initialised, and assigns [static_cast<T>(Tmp)] to
    [V] before it returns the error code, on the failure path too.  A value
    of the enumeration is the integer the cast gives.  What the local [Tmp]
    holds before the read is indeterminate; it is the argument [Tmp] of
    [deserialize_enum], and what the read does not overwrite of it reaches
    [V]. *)

Section Enums.

Variable IsBigEndianHost : bool.
Context {Ch : Type} `{RPCChannel Ch}.

Definition serialize_enum (Underlying : IntTy) (C : Ch) (V : Z)
  : error_code * Ch :=
  serialize_int IsBigEndianHost Underlying C V.

Definition deserialize_enum (Underlying : IntTy) (Tmp : Z) (C : Ch) (V : Z)
  : error_code * Z * Ch :=
  let '(EC, Tmp, C) := deserialize_int IsBigEndianHost Underlying C Tmp in
  let V := Tmp in
  (EC, V, C).

End Enums.

(** ** A channel that keeps a trace of the calls made on it

    It behaves as the channel [Under] and notes each call of a member
    function, in order: the size asked of [readBytes], the bytes handed to
    [appendBytes], and [send]. *)

Inductive Operation : Type :=
| ReadBytes (Size : Z)
| AppendBytes (Src : list byte)
| Send.

Record Traced (Ch : Type) : Type := { Under : Ch; Trace : list Operation }.

Arguments Under {Ch} _.
Arguments Trace {Ch} _.

Section Tracing.

Context {Ch : Type} `{RPCChannel Ch}.

Definition Traced_readBytes (C : Traced Ch) (Size : Z)
  : error_code * list byte * Traced Ch :=
  let '(EC, data, C') := readBytes (Under C) Size in
  (EC, data, {| Under := C'; Trace := Trace C ++ [ReadBytes Size] |}).

Definition Traced_appendBytes (C : Traced Ch) (Src : list byte)
  : error_code * Traced Ch :=
  let '(EC, C') := appendBytes (Under C) Src in
  (EC, {| Under := C'; Trace := Trace C ++ [AppendBytes Src] |}).

Definition Traced_send (C : Traced Ch) : error_code * Traced Ch :=
  let '(EC, C') := send (Under C) in
  (EC, {| Under := C'; Trace := Trace C ++ [Send] |}).

#[export] Instance Traced_RPCChannel : RPCChannel (Traced Ch) := {
  readBytes := Traced_readBytes;
  appendBytes := Traced_appendBytes;
  send := Traced_send
}.

End Tracing.

Definition is_read (o : Operation) : bool :=
  match o with ReadBytes _ => true | _ => false end.

Definition is_append (o : Operation) : bool :=
  match o with AppendBytes _ => true | _ => false end.

(** The bytes the [appendBytes] calls of a trace carry, in order. *)
Fixpoint appended (l : list Operation) : list byte :=
  match l with
  | [] => []
  | AppendBytes Src :: l' => Src ++ appended l'
  | _ :: l' => appended l'
  end.

(** The number of bytes the [readBytes] calls of a trace ask for. *)
Fixpoint requested (l : list Operation) : Z :=
  match l with
  | [] => 0
  | ReadBytes Size :: l' => Size + requested l'
  | _ :: l' => requested l'
  end.

(** The trace of [C'] is that of [C] followed by calls that all satisfy
    [p]. *)
Definition extends_trace {Ch : Type} (p : Operation -> bool)
  (C C' : Traced Ch) : Prop :=
  exists l, Trace C' = Trace C ++ l /\ forallb p l = true.

(** ** Message framing

    The channel owns two [std::mutex] members, [readLock] and [writeLock].
    The four framing functions lock or unlock one of them and return
    [std::error_code()].

    A [std::mutex] is either free or owned by a thread.  [lock] returns once
    the calling thread owns the mutex and blocks while another thread does;
    [lock] by the owner and [unlock] by a thread that is not the owner have
    undefined behaviour.  The lock and unlock operations on one mutex occur
    in a single total order, so a run of the threads that share a channel is
    the list of their calls in the order in which they return. *)

Module Framing.

Definition ThreadId : Type := nat.

Definition mutex : Type := option ThreadId.

Inductive Outcome (A : Type) : Type :=
| Returns (a : A)
| Blocks
| Undefined.

Arguments Returns {A} a.
Arguments Blocks {A}.
Arguments Undefined {A}.

Definition lock (m : mutex) (t : ThreadId) : Outcome mutex :=
  match m with
  | None => Returns (Some t)
  | Some owner => if Nat.eqb owner t then Undefined else Blocks
  end.

Definition unlock (m : mutex) (t : ThreadId) : Outcome mutex :=
  match m with
  | Some owner => if Nat.eqb owner t then Returns None else Undefined
  | None => Undefined
  end.

(** The private members [std::mutex readLock, writeLock;]. *)
Record Locks : Type := { readLock : mutex; writeLock : mutex }.

Definition getReadLock (C : Locks) : mutex := readLock C.
Definition getWriteLock (C : Locks) : mutex := writeLock C.

Definition setReadLock (C : Locks) (m : mutex) : Locks :=
  {| readLock := m; writeLock := writeLock C |}.
Definition setWriteLock (C : Locks) (m : mutex) : Locks :=
  {| readLock := readLock C; writeLock := m |}.

(** [m.lock(); return std::error_code();] and the same with [unlock], for a
    mutex read by [get] and written back by [set]. *)
Definition then_success (C : Locks) (set : Locks -> mutex -> Locks)
  (o : Outcome mutex) : Outcome (error_code * Locks) :=
  match o with
  | Returns m => Returns (success, set C m)
  | Blocks => Blocks
  | Undefined => Undefined
  end.

Definition startSendMessage (t : ThreadId) (C : Locks)
  : Outcome (error_code * Locks) :=
  then_success C setWriteLock (lock (getWriteLock C) t).

Definition endSendMessage (t : ThreadId) (C : Locks)
  : Outcome (error_code * Locks) :=
  then_success C setWriteLock (unlock (getWriteLock C) t).

Definition startReceiveMessage (t : ThreadId) (C : Locks)
  : Outcome (error_code * Locks) :=
  then_success C setReadLock (lock (getReadLock C) t).

Definition endReceiveMessage (t : ThreadId) (C : Locks)
  : Outcome (error_code * Locks) :=
  then_success C setReadLock (unlock (getReadLock C) t).

(** The state in which a channel is created: both locks unheld. *)
Definition unheld : Locks := {| readLock := None; writeLock := None |}.

(** Runs of several threads on one channel. *)
Inductive Call : Type :=
| StartSend | EndSend | StartReceive | EndReceive.

Definition call (f : Call) : ThreadId -> Locks -> Outcome (error_code * Locks) :=
  match f with
  | StartSend => startSendMessage
  | EndSend => endSendMessage
  | StartReceive => startReceiveMessage
  | EndReceive => endReceiveMessage
  end.

(** The channel after the calls of [h] returned in that order; [None] when
    one of them cannot return in the state it is made in. *)
Fixpoint run (C : Locks) (h : list (ThreadId * Call)) : option Locks :=
  match h with
  | [] => Some C
  | (t, f) :: h' =>
      match call f t C with
      | Returns (_, C') => run C' h'
      | _ => None
      end
  end.

(** Thread [t] is inside a send section after [h]: it has returned from
    [startSendMessage] and not from [endSendMessage] since. *)
Fixpoint sending (t : ThreadId) (h : list (ThreadId * Call)) (now : bool)
  : bool :=
  match h with
  | [] => now
  | (t', f) :: h' =>
      if Nat.eqb t' t then
        match f with
        | StartSend => sending t h' true
        | EndSend => sending t h' false
        | _ => sending t h' now
        end
      else sending t h' now
  end.

(** Thread [t] is inside a receive section after [h]. *)
Fixpoint receiving (t : ThreadId) (h : list (ThreadId * Call)) (now : bool)
  : bool :=
  match h with
  | [] => now
  | (t', f) :: h' =>
      if Nat.eqb t' t then
        match f with
        | StartReceive => receiving t h' true
        | EndReceive => receiving t h' false
        | _ => receiving t h' now
        end
      else receiving t h' now
  end.

(** The direction of a framing call. *)
Definition is_send_call (f : Call) : bool :=
  match f with StartSend | EndSend => true | _ => false end.

End Framing.

(** * Properties *)

(** ** Bytes and byte orders *)

Lemma Z_of_byte_range (b : byte) : 0 <= Z_of_byte b < 256.
Proof.
  unfold Z_of_byte. pose proof (Byte.to_N_bounded b). lia.
Qed.

Lemma Z_of_byte_of_Z (z : Z) : Z_of_byte (byte_of_Z z) = z mod 256.
Proof.
  unfold byte_of_Z, Z_of_byte.
  assert (Hr : 0 <= z mod 256 < 256) by (apply Z.mod_pos_bound; lia).
  destruct (Byte.of_N (Z.to_N (z mod 256))) as [b|] eqn:E.
  - apply Byte.to_of_N in E. rewrite E. lia.
  - apply Byte.of_N_None_iff in E. lia.
Qed.

Lemma byte_of_Z_of_byte (b : byte) : byte_of_Z (Z_of_byte b) = b.
Proof.
  unfold byte_of_Z.
  rewrite Z.mod_small by apply Z_of_byte_range.
  unfold Z_of_byte. rewrite N2Z.id, Byte.of_to_N. reflexivity.
Qed.

Lemma byte_of_Z_mod (z : Z) : byte_of_Z (z mod 256) = byte_of_Z z.
Proof.
  unfold byte_of_Z. rewrite Z.mod_mod by lia. reflexivity.
Qed.

Lemma little_endian_length (n : nat) (v : Z) : length (little_endian n v) = n.
Proof.
  revert v. induction n as [|n IH]; intros v; simpl; [reflexivity|].
  now rewrite IH.
Qed.

Lemma pow256_S (n : nat) : 256 ^ Z.of_nat (S n) = 256 * 256 ^ Z.of_nat n.
Proof.
  rewrite Nat2Z.inj_succ, Z.pow_succ_r by lia. reflexivity.
Qed.

Lemma pow256_pos (n : nat) : 0 < 256 ^ Z.of_nat n.
Proof. apply Z.pow_pos_nonneg; lia. Qed.

Lemma little_endian_value_range (bs : list byte) :
  0 <= little_endian_value bs < 256 ^ Z.of_nat (length bs).
Proof.
  induction bs as [|b bs IH].
  - simpl. lia.
  - cbn [little_endian_value length]. rewrite pow256_S.
    pose proof (Z_of_byte_range b). lia.
Qed.

Lemma little_endian_value_little_endian (n : nat) (v : Z) :
  little_endian_value (little_endian n v) = v mod 256 ^ Z.of_nat n.
Proof.
  revert v. induction n as [|n IH]; intros v.
  - simpl. now rewrite Z.mod_1_r.
  - cbn [little_endian little_endian_value].
    rewrite IH, Z_of_byte_of_Z, pow256_S.
    pose proof (pow256_pos n).
    rewrite Z.rem_mul_r by lia. reflexivity.
Qed.

Lemma little_endian_little_endian_value (bs : list byte) :
  little_endian (length bs) (little_endian_value bs) = bs.
Proof.
  induction bs as [|b bs IH]; [reflexivity|].
  cbn [little_endian little_endian_value length].
  pose proof (Z_of_byte_range b) as Hb.
  set (x := little_endian_value bs) in *.
  f_equal.
  - rewrite <- byte_of_Z_mod.
    rewrite <- (Z.mod_unique (Z_of_byte b + 256 * x) 256 x (Z_of_byte b))
      by lia.
    apply byte_of_Z_of_byte.
  - rewrite <- (Z.div_unique (Z_of_byte b + 256 * x) 256 x (Z_of_byte b))
      by lia.
    exact IH.
Qed.

Lemma little_endian_mod (n : nat) (v : Z) :
  little_endian n (v mod 256 ^ Z.of_nat n) = little_endian n v.
Proof.
  rewrite <- little_endian_value_little_endian.
  rewrite <- (little_endian_length n v) at 1.
  apply little_endian_little_endian_value.
Qed.

Lemma little_endian_congr (n : nat) (v w : Z) :
  v mod 256 ^ Z.of_nat n = w mod 256 ^ Z.of_nat n ->
  little_endian n v = little_endian n w.
Proof.
  intros E. rewrite <- (little_endian_mod n v), E. apply little_endian_mod.
Qed.

Lemma little_endian_snoc (n : nat) (v : Z) :
  little_endian (S n) v
  = little_endian n v ++ [byte_of_Z (v / 256 ^ Z.of_nat n)].
Proof.
  revert v. induction n as [|n IH]; intros v.
  - simpl. now rewrite Z.div_1_r.
  - change (little_endian (S (S n)) v)
      with (byte_of_Z v :: little_endian (S n) (v / 256)).
    rewrite IH. cbn [little_endian app]. do 3 f_equal.
    rewrite pow256_S, Z.div_div by (try lia; apply pow256_pos).
    reflexivity.
Qed.

Lemma big_endian_rev (n : nat) (v : Z) :
  big_endian n v = rev (little_endian n v).
Proof.
  induction n as [|n IH]; [reflexivity|].
  rewrite little_endian_snoc, rev_app_distr. cbn [big_endian rev app].
  now rewrite IH.
Qed.

Lemma big_endian_length (n : nat) (v : Z) : length (big_endian n v) = n.
Proof. now rewrite big_endian_rev, length_rev, little_endian_length. Qed.

(** ** Object representations on either host *)

Lemma bits_pow (T : IntTy) : 2 ^ bits T = 256 ^ Z.of_nat (sizeof T).
Proof.
  unfold bits. rewrite Z.pow_mul_r by lia. reflexivity.
Qed.

Lemma bits_half (T : IntTy) : 2 ^ bits T = 2 * 2 ^ (bits T - 1).
Proof.
  rewrite <- Z.pow_succ_r by (destruct T; cbv; discriminate).
  f_equal. lia.
Qed.

Lemma in_range_spec (T : IntTy) (V : Z) :
  in_range T V = true <->
  if is_signed T then - 2 ^ (bits T - 1) <= V < 2 ^ (bits T - 1)
  else 0 <= V < 2 ^ bits T.
Proof.
  unfold in_range. destruct (is_signed T); rewrite andb_true_iff; lia.
Qed.

Lemma twos_complement (M H V : Z) :
  M = 2 * H -> - H <= V < H ->
  (if H <=? V mod M then V mod M - M else V mod M) = V.
Proof.
  intros -> HV.
  destruct (Z.neg_nonneg_cases V) as [Hneg|Hpos].
  - rewrite <- (Z.mod_unique V (2 * H) (-1) (V + 2 * H)) by lia.
    destruct (Z.leb_spec H (V + 2 * H)); lia.
  - rewrite Z.mod_small by lia.
    destruct (Z.leb_spec H V); lia.
Qed.

Section Representation.

Variable host : bool.

Lemma object_bytes_length (T : IntTy) (V : Z) :
  length (object_bytes host T V) = sizeof T.
Proof.
  unfold object_bytes. destruct host;
    now rewrite ?length_rev, little_endian_length.
Qed.

Lemma object_bytes_value (T : IntTy) (bs : list byte) :
  length bs = sizeof T ->
  object_bytes host T (object_value host T bs) = bs.
Proof.
  intros Hlen. unfold object_bytes, object_value.
  set (l := if host then rev bs else bs).
  assert (Hl : length l = sizeof T)
    by (subst l; destruct host; now rewrite ?length_rev).
  assert (E : little_endian (sizeof T)
                (if is_signed T && (2 ^ (bits T - 1) <=? little_endian_value l)
                 then little_endian_value l - 2 ^ bits T
                 else little_endian_value l) = l).
  { transitivity (little_endian (length l) (little_endian_value l));
      [|apply little_endian_little_endian_value].
    rewrite Hl. apply little_endian_congr.
    destruct (is_signed T && _); [|reflexivity].
    rewrite bits_pow.
    replace (little_endian_value l - 256 ^ Z.of_nat (sizeof T))
      with (little_endian_value l + (-1) * 256 ^ Z.of_nat (sizeof T)) by lia.
    apply Z.mod_add. pose proof (pow256_pos (sizeof T)). lia. }
  rewrite E. subst l. destruct host; [apply rev_involutive|reflexivity].
Qed.

Lemma object_value_little_endian (T : IntTy) (V : Z) :
  in_range T V = true ->
  (let u := V mod 2 ^ bits T in
   if is_signed T && (2 ^ (bits T - 1) <=? u) then u - 2 ^ bits T else u) = V.
Proof.
  intros HV. apply in_range_spec in HV. cbv zeta.
  destruct (is_signed T); cbn [andb].
  - apply twos_complement; [apply bits_half|exact HV].
  - apply Z.mod_small. exact HV.
Qed.

Lemma object_value_bytes (T : IntTy) (V : Z) :
  in_range T V = true ->
  object_value host T (object_bytes host T V) = V.
Proof.
  intros HV. unfold object_value, object_bytes.
  replace (if host then rev (if host then rev (little_endian (sizeof T) V)
                             else little_endian (sizeof T) V)
           else (if host then rev (little_endian (sizeof T) V)
                 else little_endian (sizeof T) V))
    with (little_endian (sizeof T) V)
    by (destruct host; now rewrite ?rev_involutive).
  rewrite little_endian_value_little_endian, <- bits_pow.
  now apply object_value_little_endian.
Qed.

(** The value [byte_swap<T, big>] returns, which its callers here drop, has
    the big-endian bytes as its object representation. *)
Lemma object_bytes_byte_swap_big (T : IntTy) (V : Z) :
  object_bytes host T (byte_swap_big host T V) = big_endian (sizeof T) V.
Proof.
  rewrite big_endian_rev. unfold byte_swap_big, swapByteOrder.
  pose proof (object_bytes_value T (rev (object_bytes host T V))) as Hrev.
  rewrite length_rev, object_bytes_length in Hrev. specialize (Hrev eq_refl).
  destruct host; [reflexivity|exact Hrev].
Qed.

Lemma range_all (l : list byte) : range l (Z.of_nat (length l)) = l.
Proof.
  unfold range. rewrite Nat2Z.id. apply firstn_all.
Qed.

(** The object representation is the big-endian encoding on a big-endian
    host and its reverse on a little-endian one. *)
Lemma object_bytes_order (T : IntTy) (V : Z) :
  object_bytes host T V
  = if host then big_endian (sizeof T) V else rev (big_endian (sizeof T) V).
Proof.
  unfold object_bytes. rewrite big_endian_rev, rev_involutive. reflexivity.
Qed.

Lemma object_bytes_mod (T U : IntTy) (V : Z) :
  sizeof T = sizeof U ->
  object_bytes host T V = object_bytes host U (V mod 2 ^ bits U).
Proof.
  intros Hsize. unfold object_bytes.
  now rewrite bits_pow, <- Hsize, little_endian_mod.
Qed.

End Representation.

Lemma failed_false (EC : error_code) : failed EC = false -> EC = success.
Proof.
  unfold failed, success. destruct (Z.eqb_spec EC 0); [trivial|discriminate].
Qed.

Lemma failed_success : failed success = false.
Proof. reflexivity. Qed.

Lemma store_length (Dst : list byte) (Size : Z) (data : list byte) :
  (Z.to_nat Size <= length Dst)%nat ->
  length (store Dst Size data) = length Dst.
Proof.
  unfold store. rewrite length_app, length_skipn, length_firstn. lia.
Qed.

Lemma store_exact (Dst : list byte) (data : list byte) :
  length data = length Dst ->
  store Dst (Z.of_nat (length Dst)) data = data.
Proof.
  intros E. unfold store. rewrite Nat2Z.id, <- E, firstn_all, skipn_all2.
  - apply app_nil_r.
  - lia.
Qed.

Lemma resize_length {A : Type} (V : list A) (Count : Z) (init : A) :
  length (resize V Count init) = Z.to_nat Count.
Proof.
  unfold resize. rewrite length_app, length_firstn, repeat_length. lia.
Qed.

(** ** The primitive codecs on an arbitrary channel *)

Section Wire.

Variable host : bool.
Context {Ch : Type} `{RPCChannel Ch}.

Lemma serialize_int_appends (T : IntTy) (C : Ch) (V : Z) :
  serialize_int host T C V = appendBytes C (object_bytes host T V).
Proof.
  unfold serialize_int. cbv zeta.
  pose proof (range_all (object_bytes host T V)) as E.
  rewrite object_bytes_length in E.
  now rewrite E.
Qed.

Lemma serialize_SInt (T : IntTy) (C : Ch) (V : Z) :
  serialize host (SInt T) C V = appendBytes C (object_bytes host T V).
Proof. apply serialize_int_appends. Qed.

Lemma object_bytes_zero : object_bytes host uint64_t 0 = repeat x00 8.
Proof. unfold object_bytes. destruct host; reflexivity. Qed.

Lemma object_bytes_uint8 (V : Z) :
  object_bytes host uint8_t V = [byte_of_Z V].
Proof. unfold object_bytes. destruct host; reflexivity. Qed.

Lemma serialize_SBool (C : Ch) (V : bool) :
  serialize host SBool C V = appendBytes C [if V then x01 else x00].
Proof.
  change (serialize host SBool C V) with (serialize_bool host C V).
  unfold serialize_bool, object_bytes. destruct host, V; reflexivity.
Qed.

(** C1 does not hold of the code.  [serialize] of an integer of type [T]
    is one [appendBytes] call that hands the channel the object
    representation of the value, the value of the [byte_swap] call being
    dropped: the bytes are in the order of the host.  On a big-endian host
    that is the big-endian order of the claim; on a little-endian host it is
    the reverse, and the [uint32_t] value 0x01020304 is appended as
    04 03 02 01 and not as 01 02 03 04. *)
Theorem serialize_integer_host_order :
  (forall (T : IntTy) (C : Ch) (V : Z),
      serialize host (SInt T) C V
      = appendBytes C (if host then big_endian (sizeof T) V
                       else rev (big_endian (sizeof T) V)))
  /\ (forall C : Ch,
         serialize true (SInt uint32_t) C 0x01020304
         = appendBytes C [x01; x02; x03; x04])
  /\ (forall C : Ch,
         serialize false (SInt uint32_t) C 0x01020304
         = appendBytes C [x04; x03; x02; x01])
  /\ [x04; x03; x02; x01] <> big_endian (sizeof uint32_t) 0x01020304.
Proof.
  split; [|split; [|split]].
  - intros T C V. rewrite serialize_SInt. now rewrite object_bytes_order.
  - intros C. reflexivity.
  - intros C. reflexivity.
  - discriminate.
Qed.

Lemma object_value_uint8 (b : byte) (rest : list byte) :
  object_value host uint8_t (store (object_bytes host uint8_t 0) 1 (b :: rest))
  = Z_of_byte b.
Proof.
  unfold object_value, object_bytes, store.
  change (Z.to_nat 1) with 1%nat.
  destruct host; cbn; lia.
Qed.

Lemma Z_of_byte_zero (b : byte) : Z_of_byte b = 0 <-> b = x00.
Proof.
  split.
  - intros E. rewrite <- (byte_of_Z_of_byte b), E. reflexivity.
  - intros ->. reflexivity.
Qed.

(** C6. A [bool] is written as the single byte 00 ([false]) or 01 ([true]).
    It is read with one [readBytes] call of size 1; when that call succeeds
    and delivers the byte [b], the value read is [false] if [b] is 00 and
    [true] for each of the other 255 bytes; when it fails, its error code is
    returned and [V] keeps its value. *)
Theorem bool_one_byte :
  (forall C : Ch, serialize host SBool C false = appendBytes C [x00])
  /\ (forall C : Ch, serialize host SBool C true = appendBytes C [x01])
  /\ (forall (C : Ch) (V : bool) (b : byte) (rest : list byte) (C' : Ch),
         readBytes C 1 = (success, b :: rest, C') ->
         deserialize host SBool C V
         = (success, if Byte.eqb b x00 then false else true, C'))
  /\ (forall (C : Ch) (V : bool) (EC : error_code) (data : list byte) (C' : Ch),
         readBytes C 1 = (EC, data, C') ->
         failed EC = true ->
         deserialize host SBool C V = (EC, V, C')).
Proof.
  repeat split.
  - intros C. cbn [serialize]. unfold serialize_bool, object_bytes.
    destruct host; reflexivity.
  - intros C. cbn [serialize]. unfold serialize_bool, object_bytes.
    destruct host; reflexivity.
  - intros C V b rest C' Hread. cbn [serialize deserialize].
    unfold deserialize_bool. rewrite Hread, failed_success.
    rewrite object_value_uint8. do 2 f_equal.
    destruct (Byte.eqb b x00) eqn:E.
    + apply Byte.byte_dec_bl in E. subst b. reflexivity.
    + destruct (Z.eqb_spec (Z_of_byte b) 0) as [E0|E0]; [|reflexivity].
      apply Z_of_byte_zero in E0. subst b. discriminate.
  - intros C V EC data C' Hread Hfail. cbn [deserialize].
    unfold deserialize_bool. now rewrite Hread, Hfail.
Qed.

(** C8. Serializing an empty vector, whatever its element type, is the one
    [appendBytes] call that writes the eight zero bytes of the count; no
    element is serialized. *)
Theorem serialize_empty_vector :
  forall (T : Shape) (C : Ch),
    serialize host (SVector T) C []
    = appendBytes C [x00; x00; x00; x00; x00; x00; x00; x00].
Proof.
  intros T C. cbn [serialize].
  unfold serialize_vector, serialize_ArrayRef.
  rewrite serialize_int_appends.
  change (size []) with 0. rewrite object_bytes_zero.
  change (repeat x00 8) with [x00; x00; x00; x00; x00; x00; x00; x00].
  destruct (appendBytes C _) as [EC C1].
  destruct (failed EC) eqn:E; [reflexivity|].
  apply failed_false in E. subst EC. reflexivity.
Qed.

End Wire.

(** ** The string deserializer and the 32-bit [Size] of [readBytes] *)

Section Strings.

Variable host : bool.
Context {Ch : Type} `{RPCChannel Ch}.

Lemma object_value_unsigned (T : IntTy) (bs : list byte) :
  is_signed T = false -> 0 <= object_value host T bs.
Proof.
  intros E. unfold object_value. rewrite E. cbn [andb].
  apply little_endian_value_range.
Qed.

Lemma deserialize_int_unsigned (T : IntTy) (C C1 : Ch) (V0 V : Z) :
  is_signed T = false ->
  deserialize_int host T C V0 = (success, V, C1) ->
  0 <= V.
Proof.
  intros E. unfold deserialize_int.
  destruct (readBytes C (Z.of_nat (sizeof T))) as [[EC data] C'].
  destruct (failed EC) eqn:Hf; intros Heq; inversion Heq; subst.
  - discriminate.
  - now apply object_value_unsigned.
Qed.

Lemma to_unsigned_range (n : Z) : 0 <= to_unsigned n < 2 ^ 32.
Proof. unfold to_unsigned. apply Z.mod_pos_bound. reflexivity. Qed.

Lemma to_unsigned_le (n : Z) : 0 <= n -> to_unsigned n <= n.
Proof. intros Hn. unfold to_unsigned. apply Z.mod_le; lia. Qed.

(** C5. Once the string deserializer has read the 64-bit [Count], it resizes
    [S] to [Count] bytes and makes one [readBytes] call whose [Size] is
    [Count mod 2 ^ 32]: the bytes delivered overwrite the front of the
    resized string, which keeps its [Count] bytes.  For a [Count] of
    [2 ^ 32] or more the size requested is not the declared length. *)
Theorem deserialize_string_truncates_count :
  forall (C : Ch) (S : list byte) (Count : Z) (C1 : Ch),
    deserialize_int host uint64_t C uninitialised = (success, Count, C1) ->
    deserialize host SString C S
    = (let '(EC, data, C2) := readBytes C1 (Count mod 2 ^ 32) in
       (EC, store (resize S Count x00) (Count mod 2 ^ 32) data, C2))
    /\ size (snd (fst (deserialize host SString C S))) = Count
    /\ (2 ^ 32 <= Count -> Count mod 2 ^ 32 <> Count).
Proof.
  intros C S Count C1 Hcount.
  assert (Hpos : 0 <= Count)
    by (apply (deserialize_int_unsigned uint64_t C C1 uninitialised Count
                 eq_refl Hcount)).
  assert (Heq : deserialize host SString C S
                = (let '(EC, data, C2) := readBytes C1 (Count mod 2 ^ 32) in
                   (EC, store (resize S Count x00) (Count mod 2 ^ 32) data, C2))).
  { cbn [deserialize]. unfold deserialize_string.
    rewrite Hcount, failed_success. reflexivity. }
  split; [exact Heq|split].
  - rewrite Heq.
    destruct (readBytes C1 (Count mod 2 ^ 32)) as [[EC data] C2].
    cbn [fst snd]. unfold size.
    pose proof (to_unsigned_le Count Hpos) as Hle.
    pose proof (to_unsigned_range Count) as Hr. unfold to_unsigned in Hle, Hr.
    rewrite store_length; rewrite resize_length; lia.
  - intros Hbig Heq'.
    pose proof (to_unsigned_range Count) as Hr. unfold to_unsigned in Hr.
    lia.
Qed.

End Strings.

(** ** The variadic composers *)

Section Composers.

Variable host : bool.
Context {Ch : Type} `{RPCChannel Ch}.

Lemma serializeSeq_cons (T : Shape) (Ts : Pack) (C : Ch)
  (Arg : Value T) (Args : Values Ts) :
  serializeSeq host (PCons T Ts) C (Arg, Args)
  = (let '(EC, C1) := serialize host T C Arg in
     if failed EC then (EC, C1) else serializeSeq host Ts C1 Args).
Proof. reflexivity. Qed.

Lemma deserializeSeq_cons (T : Shape) (Ts : Pack) (C : Ch)
  (Arg : Value T) (Args : Values Ts) :
  deserializeSeq host (PCons T Ts) C (Arg, Args)
  = (let '(EC, Arg', C1) := deserialize host T C Arg in
     if failed EC then (EC, (Arg', Args), C1)
     else
       let '(EC', Args', C2) := deserializeSeq host Ts C1 Args in
       (EC', (Arg', Args'), C2)).
Proof. reflexivity. Qed.

Lemma first_failure_stops (pre post : list codec_call) (f : codec_call)
  (C C1 C2 : Ch) (EC : error_code) :
  all_succeed pre C = Some C1 ->
  f C1 = (EC, C2) ->
  failed EC = true ->
  first_failure (pre ++ f :: post) C = (EC, C2).
Proof.
  revert C. induction pre as [|g pre IH]; intros C Hpre Hf Hfail.
  - cbn in Hpre. injection Hpre as ->. cbn. now rewrite Hf, Hfail.
  - cbn in Hpre |- *. destruct (g C) as [ECg Cg].
    destruct (failed ECg); [discriminate|]. now apply IH.
Qed.

Lemma first_failure_none (calls : list codec_call) (C C' : Ch) :
  all_succeed calls C = Some C' ->
  first_failure calls C = (success, C').
Proof.
  revert C. induction calls as [|g calls IH]; intros C Hall.
  - cbn in Hall |- *. now injection Hall as ->.
  - cbn in Hall |- *. destruct (g C) as [ECg Cg].
    destruct (failed ECg); [discriminate|]. now apply IH.
Qed.

Lemma serializeSeq_first_failure (Ts : Pack) (C : Ch) (Args : Values Ts) :
  serializeSeq host Ts C Args = first_failure (serialize_calls host Ts Args) C.
Proof.
  revert C. induction Ts as [|T Ts IH]; intros C.
  - reflexivity.
  - destruct Args as [Arg Args]. rewrite serializeSeq_cons.
    cbn [serialize_calls first_failure fst snd].
    destruct (serialize host T C Arg) as [EC C1].
    destruct (failed EC); [reflexivity|apply IH].
Qed.

Lemma deserializeSeq_first_failure (Ts : Pack) (C : Ch) (Args : Values Ts) :
  outcome (deserializeSeq host Ts C Args)
  = first_failure (deserialize_calls host Ts Args) C.
Proof.
  revert C. induction Ts as [|T Ts IH]; intros C.
  - reflexivity.
  - destruct Args as [Arg Args]. rewrite deserializeSeq_cons.
    cbn [deserialize_calls first_failure fst snd].
    destruct (deserialize host T C Arg) as [[EC Arg'] C1]. cbn [outcome fst snd].
    destruct (failed EC); [reflexivity|].
    rewrite <- IH.
    destruct (deserializeSeq host Ts C1 Args) as [[EC' Args'] C2].
    reflexivity.
Qed.

(** A failed [deserializeSeq] leaves the arguments after the failing one as
    they were. *)
Lemma deserializeSeq_untouched (Ts : Pack) (C : Ch) (Args : Values Ts)
  (pre post : list codec_call) (f : codec_call) (C1 C2 : Ch) (EC : error_code) :
  deserialize_calls host Ts Args = pre ++ f :: post ->
  all_succeed pre C = Some C1 ->
  f C1 = (EC, C2) ->
  failed EC = true ->
  skipn (S (length pre))
    (arguments Ts (snd (fst (deserializeSeq host Ts C Args))))
  = skipn (S (length pre)) (arguments Ts Args).
Proof.
  revert C pre. induction Ts as [|T Ts IH]; intros C pre Hcalls Hpre Hf Hfail.
  - destruct pre; discriminate.
  - destruct Args as [Arg Args]. rewrite deserializeSeq_cons.
    cbn [deserialize_calls fst snd] in Hcalls.
    destruct pre as [|g pre].
    + cbn in Hcalls, Hpre. injection Hcalls as <- _. injection Hpre as <-.
      unfold outcome in Hf.
      destruct (deserialize host T C Arg) as [[EC0 Arg'] C0].
      cbn [fst snd] in Hf. injection Hf as -> ->. rewrite Hfail.
      reflexivity.
    + cbn [app] in Hcalls. injection Hcalls as <- Hrest.
      cbn [all_succeed] in Hpre. unfold outcome in Hpre.
      destruct (deserialize host T C Arg) as [[EC0 Arg'] C0].
      cbn [fst snd] in Hpre.
      destruct (failed EC0); [discriminate|].
      specialize (IH Args C0 pre Hrest Hpre Hf Hfail).
      destruct (deserializeSeq host Ts C0 Args) as [[EC' Args'] C'].
      cbn [fst snd length skipn arguments] in IH |- *. exact IH.
Qed.

(** C3. [serializeSeq] and [deserializeSeq] are the same composer over
    their own calls: both make the calls of their arguments left to right in
    argument order and return the first error.  With an empty argument list
    they return success and the channel is as it was.  When the calls before
    some argument all succeed and the call for that argument fails with
    [EC], the composer returns [EC] with the channel as that call left it,
    whatever the later arguments are, and [deserializeSeq] leaves the later
    arguments as they were; when every call succeeds the composer returns
    success with the channel as the last call left it. *)
Theorem composers_left_to_right_fail_fast :
  (forall C : Ch,
      serializeSeq host PNil C tt = (success, C)
      /\ deserializeSeq host PNil C tt = (success, tt, C))
  /\ (forall (Ts : Pack) (C : Ch) (Args : Values Ts),
         serializeSeq host Ts C Args
         = first_failure (serialize_calls host Ts Args) C
         /\ outcome (deserializeSeq host Ts C Args)
            = first_failure (deserialize_calls host Ts Args) C)
  /\ (forall (Ts : Pack) (C : Ch) (Args : Values Ts)
             (pre post : list codec_call) (f : codec_call)
             (C1 C2 : Ch) (EC : error_code),
         all_succeed pre C = Some C1 ->
         f C1 = (EC, C2) ->
         failed EC = true ->
         (serialize_calls host Ts Args = pre ++ f :: post ->
          serializeSeq host Ts C Args = (EC, C2))
         /\ (deserialize_calls host Ts Args = pre ++ f :: post ->
             outcome (deserializeSeq host Ts C Args) = (EC, C2)
             /\ skipn (S (length pre))
                  (arguments Ts (snd (fst (deserializeSeq host Ts C Args))))
                = skipn (S (length pre)) (arguments Ts Args)))
  /\ (forall (Ts : Pack) (C C' : Ch) (Args : Values Ts),
         (all_succeed (serialize_calls host Ts Args) C = Some C' ->
          serializeSeq host Ts C Args = (success, C'))
         /\ (all_succeed (deserialize_calls host Ts Args) C = Some C' ->
             outcome (deserializeSeq host Ts C Args) = (success, C'))).
Proof.
  split; [|split; [|split]].
  - intros C. split; reflexivity.
  - intros Ts C Args. split.
    + apply serializeSeq_first_failure.
    + apply deserializeSeq_first_failure.
  - intros Ts C Args pre post f C1 C2 EC Hpre Hf Hfail. split.
    + intros Hcalls. rewrite serializeSeq_first_failure, Hcalls.
      now apply first_failure_stops with (C1 := C1).
    + intros Hcalls. split.
      * rewrite deserializeSeq_first_failure, Hcalls.
        now apply first_failure_stops with (C1 := C1).
      * now apply deserializeSeq_untouched
          with (post := post) (f := f) (C1 := C1) (C2 := C2) (EC := EC).
  - intros Ts C C' Args. split; intros Hall.
    + rewrite serializeSeq_first_failure. now apply first_failure_none.
    + rewrite deserializeSeq_first_failure. now apply first_failure_none.
Qed.

End Composers.

(** ** Errors while a vector is read *)

Section Vectors.

Variable host : bool.
Context {Ch : Type} `{RPCChannel Ch}.

Lemma deserialize_elements_stops (T : Shape) (pre post : list (Value T))
  (E E' : Value T) (C1 C2 C3 : Ch) (EC : error_code) :
  all_succeed (element_calls host T pre) C1 = Some C2 ->
  deserialize host T C2 E = (EC, E', C3) ->
  failed EC = true ->
  outcome (deserialize_elements (deserialize host T) C1 (pre ++ E :: post))
  = (EC, C3).
Proof.
  revert C1. induction pre as [|E0 pre IH]; intros C1 Hpre HE Hfail.
  - cbn in Hpre. injection Hpre as ->.
    cbn [app deserialize_elements]. now rewrite HE, Hfail.
  - cbn [element_calls map all_succeed] in Hpre. unfold outcome in Hpre.
    cbn [app deserialize_elements].
    destruct (deserialize host T C1 E0) as [[EC0 E0'] C0].
    cbn [fst snd] in Hpre.
    destruct (failed EC0); [discriminate|].
    specialize (IH C0 Hpre HE Hfail).
    destruct (deserialize_elements _ C0 _) as [[EC' rest] C'].
    exact IH.
Qed.

(** The error codes of [deserialize] are error codes of [readBytes]. *)
Section Provenance.

Variable P : error_code -> Prop.
Hypothesis readBytes_P :
  forall (C : Ch) (Size : Z),
    failed (fst (fst (readBytes C Size))) = true ->
    P (fst (fst (readBytes C Size))).

Lemma deserialize_int_error (T : IntTy) (C : Ch) (V : Z) :
  failed (fst (fst (deserialize_int host T C V))) = true ->
  P (fst (fst (deserialize_int host T C V))).
Proof.
  unfold deserialize_int.
  pose proof (readBytes_P C (Z.of_nat (sizeof T))) as HP.
  destruct (readBytes C (Z.of_nat (sizeof T))) as [[EC data] C1].
  cbn [fst] in HP. destruct (failed EC) eqn:E; cbn [fst].
  - intros _. now apply HP.
  - discriminate.
Qed.

Lemma deserialize_elements_error (T : Shape) :
  (forall (C : Ch) (V : Value T),
      failed (fst (fst (deserialize host T C V))) = true ->
      P (fst (fst (deserialize host T C V)))) ->
  forall (V : list (Value T)) (C : Ch),
    failed (fst (fst (deserialize_elements (deserialize host T) C V))) = true ->
    P (fst (fst (deserialize_elements (deserialize host T) C V))).
Proof.
  intros IHT V. induction V as [|E V IH]; intros C; cbn [deserialize_elements].
  - discriminate.
  - pose proof (IHT C E) as HE.
    destruct (deserialize host T C E) as [[EC E'] C1]. cbn [fst] in HE.
    destruct (failed EC) eqn:Hf.
    + intros _. now apply HE.
    + specialize (IH C1).
      destruct (deserialize_elements _ C1 V) as [[EC' V'] C2]. exact IH.
Qed.

Lemma deserialize_error :
  (forall (T : Shape) (C : Ch) (V : Value T),
      failed (fst (fst (deserialize host T C V))) = true ->
      P (fst (fst (deserialize host T C V))))
  /\ (forall (Ts : Pack) (C : Ch) (Args : Values Ts),
         failed (fst (fst (deserializeSeq host Ts C Args))) = true ->
         P (fst (fst (deserializeSeq host Ts C Args)))).
Proof.
  apply Shape_Pack_ind.
  - intros T C V. apply deserialize_int_error.
  - intros C V. change (deserialize host SBool C V)
      with (deserialize_bool host C V). unfold deserialize_bool.
    pose proof (readBytes_P C 1) as HP.
    destruct (readBytes C 1) as [[EC data] C1]. cbn [fst] in HP.
    destruct (failed EC) eqn:E; cbn [fst]; [intros _; now apply HP|discriminate].
  - intros C S. change (deserialize host SString C S)
      with (deserialize_string host C S). unfold deserialize_string.
    pose proof (deserialize_int_error uint64_t C uninitialised) as HI.
    destruct (deserialize_int host uint64_t C uninitialised) as [[EC Count] C1].
    cbn [fst] in HI. destruct (failed EC) eqn:E.
    + intros _. now apply HI.
    + pose proof (readBytes_P C1 (to_unsigned Count)) as HP.
      destruct (readBytes C1 (to_unsigned Count)) as [[EC' data] C2].
      exact HP.
  - intros ArgTs IH C V. apply IH.
  - intros T IH C V. change (deserialize host (SVector T) C V)
      with (deserialize_vector host (deserialize host T) (value_init T) C V).
    unfold deserialize_vector.
    pose proof (deserialize_int_error uint64_t C 0) as HI.
    destruct (deserialize_int host uint64_t C 0) as [[EC Count] C1].
    cbn [fst] in HI. destruct (failed EC) eqn:E.
    + intros _. now apply HI.
    + now apply deserialize_elements_error.
  - intros C Args. discriminate.
  - intros T IHT Ts IHTs C [Arg Args]. rewrite deserializeSeq_cons.
    pose proof (IHT C Arg) as HT.
    destruct (deserialize host T C Arg) as [[EC Arg'] C1]. cbn [fst] in HT.
    destruct (failed EC) eqn:E.
    + intros _. now apply HT.
    + specialize (IHTs C1 Args).
      destruct (deserializeSeq host Ts C1 Args) as [[EC' Args'] C2].
      exact IHTs.
Qed.

End Provenance.

Lemma first_error_is_success : first_error_is success [].
Proof. constructor. Qed.

Lemma first_error_is_read (EC : error_code) :
  first_error_is (if failed EC then EC else success) [EC].
Proof.
  unfold first_error_is. destruct (failed EC) eqn:E.
  - rewrite E. exists []. split; [reflexivity|constructor].
  - rewrite failed_success. repeat constructor. exact E.
Qed.

Lemma first_error_is_app (EC EC' : error_code) (l l' : list error_code) :
  failed EC = false ->
  first_error_is EC l ->
  first_error_is EC' l' ->
  first_error_is EC' (l ++ l').
Proof.
  unfold first_error_is. intros E Hl Hl'. rewrite E in Hl.
  destruct (failed EC').
  - destruct Hl' as [ok [-> Hok]]. exists (l ++ ok).
    split; [apply app_assoc|]. apply Forall_app. now split.
  - apply Forall_app. now split.
Qed.

Lemma adds_reads_then {A B : Type} (C C1 : Recorded Ch)
  (EC : error_code) (a : A) (r : error_code * B * Recorded Ch) :
  failed EC = false ->
  adds_reads C (EC, a, C1) ->
  adds_reads C1 r ->
  adds_reads C r.
Proof.
  intros E [l [Hl Hfirst]] [l' [Hl' Hfirst']]. cbn [fst snd] in Hl, Hfirst.
  exists (l ++ l'). split.
  - now rewrite Hl', Hl, app_assoc.
  - now apply first_error_is_app with (EC := EC).
Qed.

Lemma adds_reads_readBytes (C : Recorded Ch) (Size : Z) :
  adds_reads C
    (let '(EC, data, C') := readBytes C Size in
     (if failed EC then EC else success, data, C')).
Proof.
  cbn [readBytes Recorded_RPCChannel]. unfold Recorded_readBytes.
  destruct (readBytes (Inner C) Size) as [[EC data] C'].
  exists [EC]. split; [reflexivity|apply first_error_is_read].
Qed.

Lemma adds_reads_deserialize_int (T : IntTy) (C : Recorded Ch) (V : Z) :
  adds_reads C (deserialize_int host T C V).
Proof.
  unfold deserialize_int.
  pose proof (adds_reads_readBytes C (Z.of_nat (sizeof T))) as Hread.
  destruct (readBytes C (Z.of_nat (sizeof T))) as [[EC data] C'].
  destruct (failed EC); exact Hread.
Qed.

Lemma adds_reads_elements (T : Shape) :
  (forall (C : Recorded Ch) (V : Value T),
      adds_reads C (deserialize host T C V)) ->
  forall (V : list (Value T)) (C : Recorded Ch),
    adds_reads C (deserialize_elements (deserialize host T) C V).
Proof.
  intros IHT V. induction V as [|E V IH]; intros C; cbn [deserialize_elements].
  - exists []. split; [now rewrite app_nil_r|apply first_error_is_success].
  - pose proof (IHT C E) as HE.
    destruct (deserialize host T C E) as [[EC E'] C1].
    destruct (failed EC) eqn:Hf; [exact HE|].
    specialize (IH C1).
    destruct (deserialize_elements _ C1 V) as [[EC' V'] C2].
    apply (adds_reads_then C C1 EC E' _ Hf HE). exact IH.
Qed.

Lemma adds_reads_deserialize :
  (forall (T : Shape) (C : Recorded Ch) (V : Value T),
      adds_reads C (deserialize host T C V))
  /\ (forall (Ts : Pack) (C : Recorded Ch) (Args : Values Ts),
         adds_reads C (deserializeSeq host Ts C Args)).
Proof.
  apply Shape_Pack_ind.
  - intros T C V. apply adds_reads_deserialize_int.
  - intros C V. change (deserialize host SBool C V)
      with (deserialize_bool host C V). unfold deserialize_bool.
    pose proof (adds_reads_readBytes C 1) as Hread.
    destruct (readBytes C 1) as [[EC data] C'].
    destruct (failed EC); exact Hread.
  - intros C S. change (deserialize host SString C S)
      with (deserialize_string host C S). unfold deserialize_string.
    pose proof (adds_reads_deserialize_int uint64_t C uninitialised) as HI.
    destruct (deserialize_int host uint64_t C uninitialised)
      as [[EC Count] C1].
    destruct (failed EC) eqn:Hf; [exact HI|].
    apply (adds_reads_then C C1 EC Count _ Hf HI).
    pose proof (adds_reads_readBytes C1 (to_unsigned Count)) as Hread.
    destruct (readBytes C1 (to_unsigned Count)) as [[EC' data] C2].
    destruct (failed EC') eqn:Hf'; [exact Hread|].
    apply failed_false in Hf'. subst EC'. exact Hread.
  - intros ArgTs IH C V. apply IH.
  - intros T IH C V. change (deserialize host (SVector T) C V)
      with (deserialize_vector host (deserialize host T) (value_init T) C V).
    unfold deserialize_vector.
    pose proof (adds_reads_deserialize_int uint64_t C 0) as HI.
    destruct (deserialize_int host uint64_t C 0) as [[EC Count] C1].
    destruct (failed EC) eqn:Hf; [exact HI|].
    apply (adds_reads_then C C1 EC Count _ Hf HI).
    now apply adds_reads_elements.
  - intros C Args. exists []. split; [now rewrite app_nil_r|].
    apply first_error_is_success.
  - intros T IHT Ts IHTs C [Arg Args]. rewrite deserializeSeq_cons.
    pose proof (IHT C Arg) as HT.
    destruct (deserialize host T C Arg) as [[EC Arg'] C1].
    destruct (failed EC) eqn:Hf; [exact HT|].
    specialize (IHTs C1 Args).
    destruct (deserializeSeq host Ts C1 Args) as [[EC' Args'] C2].
    apply (adds_reads_then C C1 EC Arg' _ Hf HT). exact IHTs.
Qed.

(** Recording changes nothing else: without the record, a run on the
    recording channel is the run on the channel inside. *)
Lemma erase_deserialize_int (T : IntTy) (C : Recorded Ch) (V : Z) :
  erase (deserialize_int host T C V) = deserialize_int host T (Inner C) V.
Proof.
  unfold deserialize_int.
  cbn [readBytes Recorded_RPCChannel]. unfold Recorded_readBytes.
  destruct (readBytes (Inner C) (Z.of_nat (sizeof T))) as [[EC data] C'].
  destruct (failed EC); reflexivity.
Qed.

Lemma erase_elements (T : Shape) :
  (forall (C : Recorded Ch) (V : Value T),
      erase (deserialize host T C V) = deserialize host T (Inner C) V) ->
  forall (V : list (Value T)) (C : Recorded Ch),
    erase (deserialize_elements (deserialize host T) C V)
    = deserialize_elements (deserialize host T) (Inner C) V.
Proof.
  intros IHT V. induction V as [|E V IH]; intros C; cbn [deserialize_elements].
  - reflexivity.
  - rewrite <- (IHT C E).
    destruct (deserialize host T C E) as [[EC E'] C1]. cbn [erase fst snd].
    destruct (failed EC); [reflexivity|].
    rewrite <- (IH C1).
    destruct (deserialize_elements _ C1 V) as [[EC' V'] C2]. reflexivity.
Qed.

Lemma erase_deserialize :
  (forall (T : Shape) (C : Recorded Ch) (V : Value T),
      erase (deserialize host T C V) = deserialize host T (Inner C) V)
  /\ (forall (Ts : Pack) (C : Recorded Ch) (Args : Values Ts),
         erase (deserializeSeq host Ts C Args)
         = deserializeSeq host Ts (Inner C) Args).
Proof.
  apply Shape_Pack_ind.
  - intros T C V. apply erase_deserialize_int.
  - intros C V.
    change (erase (deserialize_bool host C V)
            = deserialize_bool host (Inner C) V).
    unfold deserialize_bool.
    cbn [readBytes Recorded_RPCChannel]. unfold Recorded_readBytes.
    destruct (readBytes (Inner C) 1) as [[EC data] C'].
    destruct (failed EC); reflexivity.
  - intros C S.
    change (erase (deserialize_string host C S)
            = deserialize_string host (Inner C) S).
    unfold deserialize_string.
    rewrite <- (erase_deserialize_int uint64_t C uninitialised).
    destruct (deserialize_int host uint64_t C uninitialised)
      as [[EC Count] C1]. cbn [erase fst snd].
    destruct (failed EC); [reflexivity|].
    cbn [readBytes Recorded_RPCChannel]. unfold Recorded_readBytes.
    destruct (readBytes (Inner C1) (to_unsigned Count)) as [[EC' data] C2].
    reflexivity.
  - intros ArgTs IH C V. apply IH.
  - intros T IH C V.
    change (erase (deserialize_vector host (deserialize host T)
                     (value_init T) C V)
            = deserialize_vector host (deserialize host T) (value_init T)
                (Inner C) V).
    unfold deserialize_vector.
    rewrite <- (erase_deserialize_int uint64_t C 0).
    destruct (deserialize_int host uint64_t C 0) as [[EC Count] C1].
    cbn [erase fst snd].
    destruct (failed EC); [reflexivity|].
    now apply erase_elements.
  - intros C Args. reflexivity.
  - intros T IHT Ts IHTs C [Arg Args]. rewrite !deserializeSeq_cons.
    rewrite <- (IHT C Arg).
    destruct (deserialize host T C Arg) as [[EC Arg'] C1]. cbn [erase fst snd].
    destruct (failed EC); [reflexivity|].
    rewrite <- (IHTs C1 Args).
    destruct (deserializeSeq host Ts C1 Args) as [[EC' Args'] C2].
    reflexivity.
Qed.

Lemma failed_read_is_result (EC e : error_code) (l : list error_code) :
  first_error_is EC l -> In e l -> failed e = true -> EC = e.
Proof.
  unfold first_error_is. intros Hfirst Hin He.
  destruct (failed EC).
  - destruct Hfirst as [ok [-> Hok]]. apply in_app_or in Hin as [Hin|Hin].
    + rewrite Forall_forall in Hok. rewrite (Hok e Hin) in He. discriminate.
    + destruct Hin as [->|[]]. reflexivity.
  - rewrite Forall_forall in Hfirst. rewrite (Hfirst e Hin) in He.
    discriminate.
Qed.

(** C4. A vector is read as its count followed by its elements.  When
    reading the count fails, or when the count is read, the elements before
    some element are read and reading that element fails with [EC] (the
    third of five, say), [deserialize] for the vector returns that very
    error code and the channel as the failed call left it.  For any type, an
    error code that [deserialize] returns is one that a [readBytes] call of
    the channel returned, and when a [readBytes] call made in the course of
    [deserialize] (as the recording channel notes them) fails with [e], the
    [deserialize] call returns [e]. *)
Theorem vector_deserialize_propagates_error :
  (forall (T : Shape) (C : Ch) (V : list (Value T))
          (Count : Z) (C1 : Ch) (EC : error_code),
      deserialize_int host uint64_t C 0 = (EC, Count, C1) ->
      failed EC = true ->
      deserialize host (SVector T) C V = (EC, V, C1))
  /\ (forall (T : Shape) (C : Ch) (V : list (Value T))
             (Count : Z) (C1 C2 C3 : Ch) (pre post : list (Value T))
             (E E' : Value T) (EC : error_code),
         deserialize_int host uint64_t C 0 = (success, Count, C1) ->
         resize V Count (value_init T) = pre ++ E :: post ->
         all_succeed (element_calls host T pre) C1 = Some C2 ->
         deserialize host T C2 E = (EC, E', C3) ->
         failed EC = true ->
         outcome (deserialize host (SVector T) C V) = (EC, C3))
  /\ (forall (T : Shape) (C : Ch) (V : Value T),
         failed (fst (fst (deserialize host T C V))) = true ->
         exists (C0 : Ch) (Size : Z),
           fst (fst (readBytes C0 Size)) = fst (fst (deserialize host T C V)))
  /\ (forall (T : Shape) (C : Ch) (V : Value T) (e : error_code),
         In e (ReadLog (snd (deserialize host T
                               {| Inner := C; ReadLog := [] |} V))) ->
         failed e = true ->
         fst (fst (deserialize host T C V)) = e).
Proof.
  split; [|split; [|split]].
  - intros T C V Count C1 EC Hcount Hfail.
    change (deserialize host (SVector T) C V)
      with (deserialize_vector host (deserialize host T) (value_init T) C V).
    unfold deserialize_vector. now rewrite Hcount, Hfail.
  - intros T C V Count C1 C2 C3 pre post E E' EC Hcount Hsize Hpre HE Hfail.
    change (deserialize host (SVector T) C V)
      with (deserialize_vector host (deserialize host T) (value_init T) C V).
    unfold deserialize_vector. rewrite Hcount, failed_success, Hsize.
    now apply deserialize_elements_stops with (C2 := C2) (E' := E').
  - intros T C V.
    apply (proj1 (deserialize_error
                    (fun EC => exists C0 Size, fst (fst (readBytes C0 Size)) = EC)
                    (fun C0 Size _ => ex_intro _ C0 (ex_intro _ Size eq_refl)))).
  - intros T C V e Hin He.
    pose proof (proj1 erase_deserialize T {| Inner := C; ReadLog := [] |} V)
      as Herase.
    pose proof (proj1 adds_reads_deserialize T
                  {| Inner := C; ReadLog := [] |} V) as [l [Hl Hfirst]].
    cbn [Inner ReadLog app] in Herase, Hl. rewrite <- Herase. cbn [erase fst].
    rewrite Hl in Hin.
    now apply failed_read_is_result with (l := l).
Qed.

End Vectors.

(** ** The wire format, read off the in-memory transport *)

Section Queue.

Variable host : bool.

Lemma Queue_readBytes_front (bs rest : list byte) :
  readBytes {| Pending := bs ++ rest |} (Z.of_nat (length bs))
  = (success, bs, {| Pending := rest |}).
Proof.
  cbn [readBytes QueueChannel_RPCChannel]. unfold Queue_readBytes, range, size.
  cbn [Pending]. rewrite Nat2Z.id.
  destruct (Z.leb_spec (Z.of_nat (length bs)) (Z.of_nat (length (bs ++ rest))))
    as [_|Hlt].
  - rewrite firstn_app, Nat.sub_diag, firstn_all, firstn_O, app_nil_r.
    rewrite skipn_app, Nat.sub_diag, skipn_all, skipn_O. reflexivity.
  - rewrite length_app in Hlt. lia.
Qed.

Lemma serialize_int_queue (T : IntTy) (q : list byte) (V : Z) :
  serialize_int host T {| Pending := q |} V
  = (success, {| Pending := q ++ object_bytes host T V |}).
Proof. rewrite serialize_int_appends. reflexivity. Qed.

Lemma deserialize_int_queue (T : IntTy) (rest : list byte) (V V0 : Z) :
  in_range T V = true ->
  deserialize_int host T {| Pending := object_bytes host T V ++ rest |} V0
  = (success, V, {| Pending := rest |}).
Proof.
  intros HV. unfold deserialize_int.
  pose proof (Queue_readBytes_front (object_bytes host T V) rest) as Hread.
  rewrite object_bytes_length in Hread. rewrite Hread, failed_success.
  pose proof (store_exact (object_bytes host T V0) (object_bytes host T V))
    as Hstore.
  rewrite !object_bytes_length in Hstore.
  rewrite (Hstore eq_refl), object_value_bytes by exact HV.
  reflexivity.
Qed.

Lemma serialize_elements_queue (T : Shape) :
  (forall (q : list byte) (V : Value T),
      serialize host T {| Pending := q |} V
      = (success, {| Pending := q ++ encode host T V |})) ->
  forall (V : list (Value T)) (q : list byte),
    serialize_elements (serialize host T) {| Pending := q |} V
    = (success, {| Pending := q ++ concat (map (encode host T) V) |}).
Proof.
  intros IHT V. induction V as [|E V IH]; intros q.
  - cbn. now rewrite app_nil_r.
  - cbn [serialize_elements map concat].
    rewrite IHT, failed_success, IH, app_assoc. reflexivity.
Qed.

(** On the queue every [serialize] succeeds and adds the encoding of its
    argument behind what is pending. *)
Lemma serialize_queue :
  (forall (T : Shape) (q : list byte) (V : Value T),
      serialize host T {| Pending := q |} V
      = (success, {| Pending := q ++ encode host T V |}))
  /\ (forall (Ts : Pack) (q : list byte) (Args : Values Ts),
         serializeSeq host Ts {| Pending := q |} Args
         = (success, {| Pending := q ++ encodeSeq host Ts Args |})).
Proof.
  apply Shape_Pack_ind.
  - intros T q V. unfold encode.
    change (serialize host (SInt T)) with (serialize_int (Ch := QueueChannel) host T).
    now rewrite !serialize_int_queue.
  - intros q V. unfold encode.
    change (serialize host SBool) with (serialize_bool (Ch := QueueChannel) host).
    reflexivity.
  - intros q S. unfold encode.
    change (serialize host SString)
      with (serialize_string (Ch := QueueChannel) host).
    unfold serialize_string, serialize_StringRef.
    rewrite !serialize_int_queue, failed_success.
    cbn [appendBytes QueueChannel_RPCChannel]. unfold Queue_appendBytes.
    cbn [Pending snd app]. now rewrite app_assoc.
  - intros ArgTs IH q V. apply IH.
  - intros T IH q V. unfold encode.
    change (serialize host (SVector T))
      with (serialize_vector (Ch := QueueChannel) host (serialize host T)).
    unfold serialize_vector, serialize_ArrayRef.
    rewrite !serialize_int_queue, failed_success.
    rewrite !(serialize_elements_queue T IH).
    cbn [Pending snd app]. now rewrite app_assoc.
  - intros q Args. unfold encodeSeq. cbn. now rewrite app_nil_r.
  - intros T IHT Ts IHTs q [Arg Args]. unfold encodeSeq.
    rewrite !serializeSeq_cons, !IHT, failed_success, !IHTs.
    cbn [Pending snd app]. now rewrite app_assoc.
Qed.

Lemma encode_int (T : IntTy) (V : Z) :
  encode host (SInt T) V = object_bytes host T V.
Proof.
  unfold encode.
  change (serialize host (SInt T)) with (serialize_int (Ch := QueueChannel) host T).
  now rewrite serialize_int_queue.
Qed.

Lemma encode_bool (V : bool) :
  encode host SBool V = [if V then x01 else x00].
Proof.
  unfold encode.
  change (serialize host SBool) with (serialize_bool (Ch := QueueChannel) host).
  unfold serialize_bool, object_bytes. destruct host, V; reflexivity.
Qed.

Lemma encode_string (S : list byte) :
  encode host SString S
  = object_bytes host uint64_t (size S) ++ range S (to_unsigned (size S)).
Proof.
  unfold encode.
  change (serialize host SString)
    with (serialize_string (Ch := QueueChannel) host).
  unfold serialize_string, serialize_StringRef.
  rewrite serialize_int_queue, failed_success. reflexivity.
Qed.

Lemma encode_vector (T : Shape) (V : list (Value T)) :
  encode host (SVector T) V
  = object_bytes host uint64_t (size V) ++ concat (map (encode host T) V).
Proof.
  unfold encode at 1.
  change (serialize host (SVector T))
    with (serialize_vector (Ch := QueueChannel) host (serialize host T)).
  unfold serialize_vector, serialize_ArrayRef.
  rewrite serialize_int_queue, failed_success.
  rewrite (serialize_elements_queue T (proj1 serialize_queue T)).
  reflexivity.
Qed.

Lemma encodeSeq_cons (T : Shape) (Ts : Pack) (Arg : Value T)
  (Args : Values Ts) :
  encodeSeq host (PCons T Ts) (Arg, Args)
  = encode host T Arg ++ encodeSeq host Ts Args.
Proof.
  unfold encodeSeq at 1.
  rewrite serializeSeq_cons, (proj1 serialize_queue), failed_success.
  rewrite (proj2 serialize_queue). reflexivity.
Qed.

End Queue.

(** ** Tuples on the wire *)

(** C7. The bytes of a tuple are the bytes of its first field followed by
    the bytes of the tuple of the remaining fields, and the empty tuple has
    none: the encoding is the concatenation of the field encodings in
    declared order, with nothing before, between or after them.  For the
    tuple [(uint8_t 7, true)] the bytes appended are exactly 07 01, on either
    host; on any channel they are appended by the call for the first field
    and then, if that succeeded, by the call for the second. *)
Theorem tuple_concatenates_fields :
  forall host : bool,
    (forall (T : Shape) (Ts : Pack) (Arg : Value T) (Args : Values Ts),
        encode host (STuple (PCons T Ts)) (Arg, Args)
        = encode host T Arg ++ encode host (STuple Ts) Args)
    /\ encode host (STuple PNil) tt = []
    /\ (forall q : list byte,
           serialize host (STuple (PCons (SInt uint8_t) (PCons SBool PNil)))
             {| Pending := q |} (7, (true, tt))
           = (success, {| Pending := q ++ [x07; x01] |}))
    /\ (forall (Ch : Type) (RPC : RPCChannel Ch) (C : Ch),
           serialize host (STuple (PCons (SInt uint8_t) (PCons SBool PNil)))
             C (7, (true, tt))
           = (let '(EC, C1) := appendBytes C [x07] in
              if failed EC then (EC, C1) else appendBytes C1 [x01])).
Proof.
  intros host. split; [|split; [|split]].
  - intros T Ts Arg Args. apply encodeSeq_cons.
  - reflexivity.
  - intros q. rewrite (proj1 (serialize_queue host)). do 2 f_equal.
    change (encode host (STuple (PCons (SInt uint8_t) (PCons SBool PNil)))
              (7, (true, tt)))
      with (encodeSeq host (PCons (SInt uint8_t) (PCons SBool PNil))
              (7, (true, tt))).
    rewrite !encodeSeq_cons, encode_int, encode_bool, object_bytes_uint8.
    reflexivity.
  - intros Ch RPC C.
    change (serialize host (STuple (PCons (SInt uint8_t) (PCons SBool PNil))))
      with (serializeSeq (Ch := Ch) host
              (PCons (SInt uint8_t) (PCons SBool PNil))).
    rewrite serializeSeq_cons.
    rewrite serialize_SInt, object_bytes_uint8.
    change [byte_of_Z 7] with [x07].
    destruct (appendBytes C [x07]) as [EC C1].
    destruct (failed EC); [reflexivity|].
    rewrite serializeSeq_cons.
    rewrite serialize_SBool.
    destruct (appendBytes C1 [x01]) as [EC' C2].
    destruct (failed EC') eqn:E; [reflexivity|].
    apply failed_false in E. subst EC'. reflexivity.
Qed.

(** ** Round trips *)

Lemma in_range_size (n : Z) :
  0 <= n < 2 ^ 64 -> in_range uint64_t n = true.
Proof.
  intros Hn. apply in_range_spec. exact Hn.
Qed.

Lemma size_nonneg {A : Type} (V : list A) : 0 <= size V.
Proof. unfold size. lia. Qed.

Section RoundTrip.

Variable host : bool.

Lemma deserialize_bool_queue (rest : list byte) (V V0 : bool) :
  deserialize_bool host {| Pending := encode host SBool V ++ rest |} V0
  = (success, V, {| Pending := rest |}).
Proof.
  rewrite encode_bool. unfold deserialize_bool.
  pose proof (Queue_readBytes_front [if V then x01 else x00] rest) as Hread.
  change (Z.of_nat (length [if V then x01 else x00])) with 1 in Hread.
  rewrite Hread, failed_success.
  change ([if V then x01 else x00] ++ rest)
    with ((if V then x01 else x00) :: rest) in Hread |- *.
  rewrite object_value_uint8. destruct V; reflexivity.
Qed.

Lemma deserialize_string_queue (rest : list byte) (S S0 : list byte) :
  (size S <? 2 ^ 32) = true ->
  deserialize_string host {| Pending := encode host SString S ++ rest |} S0
  = (success, S, {| Pending := rest |}).
Proof.
  intros Hlt. apply Z.ltb_lt in Hlt. pose proof (size_nonneg S) as Hpos.
  rewrite encode_string. unfold deserialize_string.
  unfold to_unsigned. rewrite (Z.mod_small (size S)) by lia.
  rewrite <- app_assoc.
  rewrite (deserialize_int_queue host uint64_t) by (apply in_range_size; lia).
  rewrite failed_success, (Z.mod_small (size S)) by lia.
  pose proof (store_exact (resize S0 (size S) x00) S) as Hstore.
  rewrite resize_length in Hstore. unfold size in Hstore |- *.
  rewrite Nat2Z.id in Hstore.
  now rewrite range_all, Queue_readBytes_front, (Hstore eq_refl).
Qed.

Lemma deserialize_elements_queue (limit : Z) (T : Shape) :
  (forall (V V0 : Value T) (rest : list byte),
      within limit T V = true ->
      deserialize host T {| Pending := encode host T V ++ rest |} V0
      = (success, V, {| Pending := rest |})) ->
  forall (V V0 : list (Value T)) (rest : list byte),
    forallb (within limit T) V = true ->
    length V0 = length V ->
    deserialize_elements (deserialize host T)
      {| Pending := concat (map (encode host T) V) ++ rest |} V0
    = (success, V, {| Pending := rest |}).
Proof.
  intros IHT V. induction V as [|E V IH]; intros V0 rest Hall Hlen.
  - destruct V0; [reflexivity|discriminate].
  - destruct V0 as [|E0 V0]; [discriminate|].
    cbn [forallb] in Hall. apply andb_true_iff in Hall as [HE Hall].
    cbn [map concat deserialize_elements]. rewrite <- app_assoc.
    rewrite (IHT E E0 _ HE), failed_success.
    rewrite (IH V0 rest Hall) by (cbn in Hlen; lia).
    reflexivity.
Qed.

(** Reading back what was written: the value is rebuilt in [V0], whatever
    [V0] held, and what follows the encoding stays on the queue. *)
Lemma deserialize_queue :
  (forall (T : Shape) (V V0 : Value T) (rest : list byte),
      within (2 ^ 32) T V = true ->
      deserialize host T {| Pending := encode host T V ++ rest |} V0
      = (success, V, {| Pending := rest |}))
  /\ (forall (Ts : Pack) (Args Args0 : Values Ts) (rest : list byte),
         all_within (2 ^ 32) Ts Args = true ->
         deserializeSeq host Ts {| Pending := encodeSeq host Ts Args ++ rest |}
           Args0
         = (success, Args, {| Pending := rest |})).
Proof.
  apply Shape_Pack_ind.
  - intros T V V0 rest HV. rewrite encode_int.
    now apply deserialize_int_queue.
  - intros V V0 rest _. apply deserialize_bool_queue.
  - intros S S0 rest HS. now apply deserialize_string_queue.
  - intros ArgTs IH V V0 rest HV. now apply IH.
  - intros T IH V V0 rest HV.
    change (within (2 ^ 32) (SVector T) V)
      with ((size V <? 2 ^ 64) && forallb (within (2 ^ 32) T) V) in HV.
    apply andb_true_iff in HV as [Hsize Hall]. apply Z.ltb_lt in Hsize.
    pose proof (size_nonneg V) as Hpos.
    change (deserialize host (SVector T))
      with (deserialize_vector (Ch := QueueChannel) host
              (deserialize host T) (value_init T)).
    rewrite encode_vector. unfold deserialize_vector. rewrite <- app_assoc.
    rewrite (deserialize_int_queue host uint64_t)
      by (apply in_range_size; split; [exact Hpos|exact Hsize]).
    rewrite failed_success.
    apply (deserialize_elements_queue (2 ^ 32) T IH); [exact Hall|].
    rewrite resize_length. unfold size. apply Nat2Z.id.
  - intros [] [] rest _. reflexivity.
  - intros T IHT Ts IHTs [Arg Args] [Arg0 Args0] rest HV.
    change (all_within (2 ^ 32) (PCons T Ts) (Arg, Args))
      with (within (2 ^ 32) T Arg && all_within (2 ^ 32) Ts Args) in HV.
    apply andb_true_iff in HV as [HArg HArgs].
    rewrite encodeSeq_cons, deserializeSeq_cons, <- app_assoc.
    rewrite (IHT Arg Arg0 _ HArg), failed_success.
    now rewrite (IHTs Args Args0 rest HArgs).
Qed.

End RoundTrip.

(** C2, as amended.  For every type [T], on either host, and every value [V]
    of [T] whose strings all have fewer than [2 ^ 32] bytes:
    deserializing the bytes that serializing [V] produced succeeds and
    yields [V], whatever the object deserialized into held before. *)
Theorem decode_encode_round_trip :
  forall (host : bool) (T : Shape) (V V0 : Value T),
    within (2 ^ 32) T V = true ->
    decode host T V0 (encode host T V) = (success, V).
Proof.
  intros host T V V0 HV. unfold decode.
  rewrite <- (app_nil_r (encode host T V)).
  now rewrite (proj1 (deserialize_queue host) T V V0 [] HV).
Qed.

(** A string of [2 ^ 32] bytes or more whose size is a multiple of [2 ^ 32]
    travels as its count alone and comes back as that many zero bytes. *)
Lemma long_string_comes_back_zeroed (host : bool) (S : list byte) :
  size S < 2 ^ 64 ->
  to_unsigned (size S) = 0 ->
  decode host SString [] (encode host SString S)
  = (success, repeat x00 (length S)).
Proof.
  intros Hsize Hzero. pose proof (size_nonneg S) as Hpos.
  unfold decode. rewrite encode_string, Hzero.
  change (range S 0) with (@nil byte).
  change (deserialize host SString)
    with (deserialize_string (Ch := QueueChannel) host).
  unfold deserialize_string.
  rewrite (deserialize_int_queue host uint64_t) by (apply in_range_size; lia).
  rewrite failed_success, Hzero.
  change (readBytes {| Pending := [] |} 0)
    with (success, @nil byte, {| Pending := [] |}).
  change (store (resize [] (size S) x00) 0 [])
    with (resize [] (size S) x00).
  unfold resize, size. rewrite Nat2Z.id, firstn_nil, Nat.sub_0_r.
  reflexivity.
Qed.

Lemma long_string_not_round_tripped (n : nat) :
  Z.of_nat n = 2 ^ 32 ->
  is_value SString (repeat x61 n) = true
  /\ decode false SString [] (encode false SString (repeat x61 n))
     <> (success, repeat x61 n).
Proof.
  intros Hn.
  assert (Hsize : size (repeat x61 n) = 2 ^ 32)
    by (unfold size; now rewrite repeat_length).
  split.
  - unfold is_value.
    change (within (2 ^ 64) SString (repeat x61 n))
      with (size (repeat x61 n) <? 2 ^ 64).
    rewrite Hsize. reflexivity.
  - rewrite long_string_comes_back_zeroed
      by (rewrite Hsize; first [reflexivity|lia]).
    rewrite repeat_length.
    destruct n as [|n]; [discriminate Hn|].
    cbn [repeat]. intros Heq. discriminate Heq.
Qed.

(** C2 as stated does not hold of the 4 GiB string made of the byte 61: it
    is a value of type [std::string], and what comes back is not it. *)
Lemma string_of_4GiB_is_lost :
  is_value SString (repeat x61 (Z.to_nat (2 ^ 32))) = true
  /\ decode false SString []
       (encode false SString (repeat x61 (Z.to_nat (2 ^ 32))))
     <> (success, repeat x61 (Z.to_nat (2 ^ 32))).
Proof.
  apply (long_string_not_round_tripped (Z.to_nat (2 ^ 32))).
  apply Z2Nat.id. apply Z.pow_nonneg. apply Z.le_0_2.
Qed.

Lemma decode_encode_round_trip_witness :
  within (2 ^ 32) nested_example
    [([-128; 0; 127], ([x61; x62], (18446744073709551615, tt)));
     ([], ([], (0, tt)))] = true
  /\ decode true nested_example [([5], ([x00], (7, tt)))]
       (encode true nested_example
          [([-128; 0; 127], ([x61; x62], (18446744073709551615, tt)));
           ([], ([], (0, tt)))])
     = (success,
        [([-128; 0; 127], ([x61; x62], (18446744073709551615, tt)));
         ([], ([], (0, tt)))]).
Proof.
  split; [reflexivity|].
  apply (decode_encode_round_trip true nested_example). reflexivity.
Defined.

(** ** The theorems at work on the transports in memory *)

Lemma bool_one_byte_witness :
  (readBytes {| Pending := [x02; x00] |} 1
   = (success, [x02], {| Pending := [x00] |})
   /\ deserialize false SBool {| Pending := [x02; x00] |} false
      = (success, true, {| Pending := [x00] |}))
  /\ (readBytes {| Pending := [] |} 1 = (ChannelError, [], {| Pending := [] |})
      /\ failed ChannelError = true
      /\ deserialize false SBool {| Pending := [] |} true
         = (ChannelError, true, {| Pending := [] |})).
Proof.
  split.
  - split; [reflexivity|].
    apply (proj1 (proj2 (proj2 (bool_one_byte false)))
             {| Pending := [x02; x00] |} false x02 [] {| Pending := [x00] |}).
    reflexivity.
  - split; [reflexivity|]. split; [reflexivity|].
    apply (proj2 (proj2 (proj2 (bool_one_byte false)))
             {| Pending := [] |} true ChannelError [] {| Pending := [] |});
      reflexivity.
Defined.

Lemma deserialize_string_truncates_count_witness :
  deserialize_int false uint64_t
    {| Pending := [x03; x00; x00; x00; x01; x00; x00; x00; x61; x62; x63] |}
    uninitialised
  = (success, 4294967299, {| Pending := [x61; x62; x63] |})
  /\ 2 ^ 32 <= 4294967299
  /\ 4294967299 mod 2 ^ 32 <> 4294967299.
Proof.
  split; [reflexivity|]. split; [lia|].
  refine (proj2 (proj2 (deserialize_string_truncates_count false
                          {| Pending := [x03; x00; x00; x00; x01; x00; x00; x00;
                                         x61; x62; x63] |}
                          [] 4294967299 {| Pending := [x61; x62; x63] |} _)) _).
  - reflexivity.
  - lia.
Defined.

Lemma composers_left_to_right_fail_fast_witness :
  (all_succeed [fun C => serialize false (SInt uint8_t) C 1]
     {| Stream := []; Capacity := 1 |}
   = Some {| Stream := [x01]; Capacity := 1 |}
   /\ serialize false (SInt uint8_t) {| Stream := [x01]; Capacity := 1 |} 2
      = (ChannelError, {| Stream := [x01]; Capacity := 1 |})
   /\ failed ChannelError = true
   /\ serializeSeq false
        (PCons (SInt uint8_t) (PCons (SInt uint8_t) (PCons SBool PNil)))
        {| Stream := []; Capacity := 1 |} (1, (2, (true, tt)))
      = (ChannelError, {| Stream := [x01]; Capacity := 1 |}))
  /\ (all_succeed
        [fun C => outcome (deserialize false (SInt uint8_t) C 0)]
        {| Pending := [x01] |}
      = Some {| Pending := [] |}
      /\ outcome (deserialize false (SInt uint8_t) {| Pending := [] |} 9)
         = (ChannelError, {| Pending := [] |})
      /\ outcome
           (deserializeSeq false
              (PCons (SInt uint8_t) (PCons (SInt uint8_t) (PCons SBool PNil)))
              {| Pending := [x01] |} (0, (9, (true, tt))))
         = (ChannelError, {| Pending := [] |})).
Proof.
  split.
  - split; [reflexivity|]. split; [reflexivity|]. split; [reflexivity|].
    refine (proj1
             (proj1 (proj2 (proj2 (composers_left_to_right_fail_fast false)))
                (PCons (SInt uint8_t) (PCons (SInt uint8_t) (PCons SBool PNil)))
                {| Stream := []; Capacity := 1 |} (1, (2, (true, tt)))
                [fun C => serialize false (SInt uint8_t) C 1]
                [fun C => serialize false SBool C true]
                (fun C => serialize false (SInt uint8_t) C 2)
                {| Stream := [x01]; Capacity := 1 |}
                {| Stream := [x01]; Capacity := 1 |}
                ChannelError _ _ _) _); reflexivity.
  - split; [reflexivity|]. split; [reflexivity|].
    refine (proj1
             (proj2
                (proj1 (proj2 (proj2 (composers_left_to_right_fail_fast false)))
                   (PCons (SInt uint8_t) (PCons (SInt uint8_t) (PCons SBool PNil)))
                   {| Pending := [x01] |} (0, (9, (true, tt)))
                   [fun C => outcome (deserialize false (SInt uint8_t) C 0)]
                   [fun C => outcome (deserialize false SBool C true)]
                   (fun C => outcome (deserialize false (SInt uint8_t) C 9))
                   {| Pending := [] |} {| Pending := [] |}
                   ChannelError _ _ _)
                _)); reflexivity.
Defined.

Lemma vector_deserialize_propagates_error_witness :
  deserialize_int false uint64_t
    {| Pending := [x05; x00; x00; x00; x00; x00; x00; x00; x01; x02] |} 0
  = (success, 5, {| Pending := [x01; x02] |})
  /\ resize [] 5 (value_init (SInt uint8_t)) = [0; 0] ++ 0 :: [0; 0]
  /\ all_succeed (element_calls false (SInt uint8_t) [0; 0])
       {| Pending := [x01; x02] |}
     = Some {| Pending := [] |}
  /\ deserialize false (SInt uint8_t) {| Pending := [] |} 0
     = (ChannelError, 0, {| Pending := [] |})
  /\ failed ChannelError = true
  /\ outcome
       (deserialize false (SVector (SInt uint8_t))
          {| Pending := [x05; x00; x00; x00; x00; x00; x00; x00; x01; x02] |}
          [])
     = (ChannelError, {| Pending := [] |})
  /\ ReadLog
       (snd (deserialize false (SVector (SInt uint8_t))
               {| Inner :=
                    {| Pending := [x05; x00; x00; x00; x00; x00; x00; x00;
                                   x01; x02] |};
                  ReadLog := [] |} []))
     = [success; success; success; ChannelError]
  /\ fst (fst (deserialize false (SVector (SInt uint8_t))
                 {| Pending := [x05; x00; x00; x00; x00; x00; x00; x00;
                                x01; x02] |} []))
     = ChannelError.
Proof.
  do 5 (split; [reflexivity|]).
  split.
  - apply (proj1 (proj2 (vector_deserialize_propagates_error false))
             (SInt uint8_t)
             {| Pending := [x05; x00; x00; x00; x00; x00; x00; x00; x01; x02] |}
             [] 5 {| Pending := [x01; x02] |} {| Pending := [] |}
             {| Pending := [] |} [0; 0] [0; 0] 0 0 ChannelError);
      reflexivity.
  - split; [reflexivity|].
    apply (proj2 (proj2 (proj2 (vector_deserialize_propagates_error false)))
             (SVector (SInt uint8_t))
             {| Pending := [x05; x00; x00; x00; x00; x00; x00; x00; x01; x02] |}
             [] ChannelError).
    + vm_compute. tauto.
    + reflexivity.
Defined.

(** * Further properties of the codecs *)

(** ** What the serializers hand to the channel *)

Section Serializers.

Variable host : bool.
Context {Ch : Type} `{RPCChannel Ch}.

Lemma range_size (S : list byte) (n : Z) :
  0 <= n <= size S -> size (range S n) = n.
Proof.
  intros Hn. unfold size, range in *. rewrite length_firstn. lia.
Qed.

(** [serialize] of a string writes the full 64-bit size and then, if that
    succeeded, hands [appendBytes] the first [size mod 2 ^ 32] bytes of the
    string: all of it when the string is shorter than [2 ^ 32] bytes, and a
    strict prefix of it otherwise. *)
Theorem serialize_string_count_then_payload :
  forall (C : Ch) (S : list byte),
    serialize host SString C S
    = (let '(EC, C1) := serialize host (SInt uint64_t) C (size S) in
       if failed EC then (EC, C1)
       else appendBytes C1 (range S (size S mod 2 ^ 32)))
    /\ size (range S (size S mod 2 ^ 32)) = size S mod 2 ^ 32
    /\ (size S < 2 ^ 32 -> range S (size S mod 2 ^ 32) = S)
    /\ (2 ^ 32 <= size S -> range S (size S mod 2 ^ 32) <> S).
Proof.
  intros C S. pose proof (size_nonneg S) as Hpos.
  pose proof (to_unsigned_range (size S)) as Hr.
  pose proof (to_unsigned_le (size S) Hpos) as Hle.
  unfold to_unsigned in Hr, Hle.
  split; [reflexivity|]. split; [|split].
  - apply range_size. lia.
  - intros Hlt. rewrite Z.mod_small by lia. apply range_all.
  - intros Hbig Heq.
    assert (Hsize : size (range S (size S mod 2 ^ 32)) = size S mod 2 ^ 32)
      by (apply range_size; lia).
    rewrite Heq in Hsize. lia.
Qed.

(** The error codes of [serialize] are error codes of [appendBytes]. *)
Section AppendErrors.

Variable P : error_code -> Prop.
Hypothesis appendBytes_P :
  forall (C : Ch) (Src : list byte),
    failed (fst (appendBytes C Src)) = true -> P (fst (appendBytes C Src)).

Lemma serialize_int_error (T : IntTy) (C : Ch) (V : Z) :
  failed (fst (serialize_int host T C V)) = true ->
  P (fst (serialize_int host T C V)).
Proof. unfold serialize_int. apply appendBytes_P. Qed.

Lemma serialize_elements_error (T : Shape) :
  (forall (C : Ch) (V : Value T),
      failed (fst (serialize host T C V)) = true ->
      P (fst (serialize host T C V))) ->
  forall (V : list (Value T)) (C : Ch),
    failed (fst (serialize_elements (serialize host T) C V)) = true ->
    P (fst (serialize_elements (serialize host T) C V)).
Proof.
  intros IHT V. induction V as [|E V IH]; intros C; cbn [serialize_elements].
  - discriminate.
  - pose proof (IHT C E) as HE.
    destruct (serialize host T C E) as [EC C1]. cbn [fst] in HE.
    destruct (failed EC) eqn:Hf; [intros _; now apply HE|apply IH].
Qed.

Lemma serialize_error :
  (forall (T : Shape) (C : Ch) (V : Value T),
      failed (fst (serialize host T C V)) = true ->
      P (fst (serialize host T C V)))
  /\ (forall (Ts : Pack) (C : Ch) (Args : Values Ts),
         failed (fst (serializeSeq host Ts C Args)) = true ->
         P (fst (serializeSeq host Ts C Args))).
Proof.
  apply Shape_Pack_ind.
  - intros T C V. apply serialize_int_error.
  - intros C V. change (serialize host SBool C V)
      with (serialize_bool host C V). unfold serialize_bool.
    apply appendBytes_P.
  - intros C S. change (serialize host SString C S)
      with (serialize_StringRef host C S). unfold serialize_StringRef.
    pose proof (serialize_int_error uint64_t C (size S)) as HI.
    destruct (serialize_int host uint64_t C (size S)) as [EC C1].
    cbn [fst] in HI. destruct (failed EC) eqn:E.
    + intros _. now apply HI.
    + apply appendBytes_P.
  - intros ArgTs IH C V. apply IH.
  - intros T IH C V. change (serialize host (SVector T) C V)
      with (serialize_ArrayRef host (serialize host T) C V).
    unfold serialize_ArrayRef.
    match goal with
    | |- context [serialize_int host uint64_t C ?n] =>
        pose proof (serialize_int_error uint64_t C n) as HI;
        destruct (serialize_int host uint64_t C n) as [EC C1]
    end.
    cbn [fst] in HI. destruct (failed EC) eqn:E.
    + intros _. now apply HI.
    + now apply serialize_elements_error.
  - intros C Args. discriminate.
  - intros T IHT Ts IHTs C [Arg Args]. rewrite serializeSeq_cons.
    pose proof (IHT C Arg) as HT.
    destruct (serialize host T C Arg) as [EC C1]. cbn [fst] in HT.
    destruct (failed EC) eqn:E; [intros _; now apply HT|apply IHTs].
Qed.

End AppendErrors.

(** [serialize] introduces no error code of its own: for every type, an
    error code it returns is one that an [appendBytes] call of the channel
    returned. *)
Theorem serialize_errors_come_from_appendBytes :
  forall (T : Shape) (C : Ch) (V : Value T),
    failed (fst (serialize host T C V)) = true ->
    exists (C0 : Ch) (Src : list byte),
      fst (appendBytes C0 Src) = fst (serialize host T C V).
Proof.
  intros T C V.
  apply (proj1 (serialize_error
                  (fun EC => exists C0 Src, fst (appendBytes C0 Src) = EC)
                  (fun C0 Src _ => ex_intro _ C0 (ex_intro _ Src eq_refl)))).
Qed.

Lemma serialize_elements_stops (T : Shape) (pre post : list (Value T))
  (E : Value T) (C1 C2 C3 : Ch) (EC : error_code) :
  all_succeed (map (fun E C => serialize host T C E) pre) C1 = Some C2 ->
  serialize host T C2 E = (EC, C3) ->
  failed EC = true ->
  serialize_elements (serialize host T) C1 (pre ++ E :: post) = (EC, C3).
Proof.
  revert C1. induction pre as [|E0 pre IH]; intros C1 Hpre HE Hfail.
  - cbn in Hpre. injection Hpre as ->.
    cbn [app serialize_elements]. now rewrite HE, Hfail.
  - cbn [map all_succeed] in Hpre. cbn [app serialize_elements].
    destruct (serialize host T C1 E0) as [EC0 C0].
    destruct (failed EC0); [discriminate|]. now apply IH.
Qed.

(** Serializing a vector stops at the first failure.  When writing the count
    fails, that error is returned and no element is serialized; when the
    count and the elements before some element are written and serializing
    that element fails with [EC], the result is [EC] and the channel is as
    the failed call left it, whatever elements follow. *)
Theorem serialize_vector_stops_at_first_error :
  forall (T : Shape) (C C1 : Ch) (V : list (Value T)) (EC0 : error_code),
    serialize host (SInt uint64_t) C (size V) = (EC0, C1) ->
    (failed EC0 = true -> serialize host (SVector T) C V = (EC0, C1))
    /\ (forall (pre post : list (Value T)) (E : Value T) (C2 C3 : Ch)
               (EC : error_code),
           failed EC0 = false ->
           V = pre ++ E :: post ->
           all_succeed (map (fun E C => serialize host T C E) pre) C1
           = Some C2 ->
           serialize host T C2 E = (EC, C3) ->
           failed EC = true ->
           serialize host (SVector T) C V = (EC, C3)).
Proof.
  intros T C C1 V EC0 Hcount.
  change (serialize host (SInt uint64_t) C (size V))
    with (serialize_int host uint64_t C (size V)) in Hcount.
  change (serialize host (SVector T) C V)
    with (serialize_ArrayRef host (serialize host T) C V).
  unfold serialize_ArrayRef. rewrite Hcount. split.
  - intros Hfail. now rewrite Hfail.
  - intros pre post E C2 C3 EC Hok -> Hpre HE Hfail. rewrite Hok.
    now apply serialize_elements_stops with (C2 := C2).
Qed.

End Serializers.

(** ** The calls the codecs make *)

Section Calls_made.

Variable host : bool.
Context {Ch : Type} `{RPCChannel Ch}.

Lemma extends_trace_refl (p : Operation -> bool) (C : Traced Ch) :
  extends_trace p C C.
Proof. exists []. now rewrite app_nil_r. Qed.

Lemma extends_trace_trans (p : Operation -> bool) (C C1 C2 : Traced Ch) :
  extends_trace p C C1 -> extends_trace p C1 C2 -> extends_trace p C C2.
Proof.
  intros [l [Hl Hp]] [l' [Hl' Hp']]. exists (l ++ l'). split.
  - now rewrite Hl', Hl, app_assoc.
  - rewrite forallb_app. now rewrite Hp, Hp'.
Qed.

Lemma extends_trace_appendBytes (C : Traced Ch) (Src : list byte) :
  extends_trace is_append C (snd (appendBytes C Src)).
Proof.
  cbn [appendBytes Traced_RPCChannel]. unfold Traced_appendBytes.
  destruct (appendBytes (Under C) Src) as [EC C'].
  now exists [AppendBytes Src].
Qed.

Lemma extends_trace_readBytes (C : Traced Ch) (Size : Z) :
  extends_trace is_read C (snd (readBytes C Size)).
Proof.
  cbn [readBytes Traced_RPCChannel]. unfold Traced_readBytes.
  destruct (readBytes (Under C) Size) as [[EC data] C'].
  now exists [ReadBytes Size].
Qed.

Lemma serialize_int_appends_only (T : IntTy) (C : Traced Ch) (V : Z) :
  extends_trace is_append C (snd (serialize_int host T C V)).
Proof. unfold serialize_int. apply extends_trace_appendBytes. Qed.

Lemma deserialize_int_reads_only (T : IntTy) (C : Traced Ch) (V : Z) :
  extends_trace is_read C (snd (deserialize_int host T C V)).
Proof.
  unfold deserialize_int.
  pose proof (extends_trace_readBytes C (Z.of_nat (sizeof T))) as Hread.
  destruct (readBytes C (Z.of_nat (sizeof T))) as [[EC data] C'].
  destruct (failed EC); exact Hread.
Qed.

Lemma serialize_appends_only :
  (forall (T : Shape) (C : Traced Ch) (V : Value T),
      extends_trace is_append C (snd (serialize host T C V)))
  /\ (forall (Ts : Pack) (C : Traced Ch) (Args : Values Ts),
         extends_trace is_append C (snd (serializeSeq host Ts C Args))).
Proof.
  apply Shape_Pack_ind.
  - intros T C V. apply serialize_int_appends_only.
  - intros C V. change (serialize host SBool C V)
      with (serialize_bool host C V). apply extends_trace_appendBytes.
  - intros C S. change (serialize host SString C S)
      with (serialize_StringRef host C S). unfold serialize_StringRef.
    pose proof (serialize_int_appends_only uint64_t C (size S)) as HI.
    destruct (serialize_int host uint64_t C (size S)) as [EC C1].
    destruct (failed EC); [exact HI|].
    eapply extends_trace_trans; [exact HI|apply extends_trace_appendBytes].
  - intros ArgTs IH C V. apply IH.
  - intros T IH C V. change (serialize host (SVector T) C V)
      with (serialize_ArrayRef host (serialize host T) C V).
    unfold serialize_ArrayRef.
    match goal with
    | |- context [serialize_int host uint64_t C ?n] =>
        pose proof (serialize_int_appends_only uint64_t C n) as HI;
        destruct (serialize_int host uint64_t C n) as [EC C1]
    end.
    destruct (failed EC); [exact HI|].
    eapply extends_trace_trans; [exact HI|]. clear HI.
    revert C1. induction V as [|E V IHV]; intros C1; cbn [serialize_elements].
    + apply extends_trace_refl.
    + pose proof (IH C1 E) as HE.
      destruct (serialize host T C1 E) as [EC' C2].
      destruct (failed EC'); [exact HE|].
      eapply extends_trace_trans; [exact HE|apply IHV].
  - intros C Args. apply extends_trace_refl.
  - intros T IHT Ts IHTs C [Arg Args]. rewrite serializeSeq_cons.
    pose proof (IHT C Arg) as HT.
    destruct (serialize host T C Arg) as [EC C1].
    destruct (failed EC); [exact HT|].
    eapply extends_trace_trans; [exact HT|apply IHTs].
Qed.

Lemma deserialize_reads_only :
  (forall (T : Shape) (C : Traced Ch) (V : Value T),
      extends_trace is_read C (snd (deserialize host T C V)))
  /\ (forall (Ts : Pack) (C : Traced Ch) (Args : Values Ts),
         extends_trace is_read C (snd (deserializeSeq host Ts C Args))).
Proof.
  apply Shape_Pack_ind.
  - intros T C V. apply deserialize_int_reads_only.
  - intros C V. change (deserialize host SBool C V)
      with (deserialize_bool host C V). unfold deserialize_bool.
    pose proof (extends_trace_readBytes C 1) as Hread.
    destruct (readBytes C 1) as [[EC data] C'].
    destruct (failed EC); exact Hread.
  - intros C S. change (deserialize host SString C S)
      with (deserialize_string host C S). unfold deserialize_string.
    pose proof (deserialize_int_reads_only uint64_t C uninitialised) as HI.
    destruct (deserialize_int host uint64_t C uninitialised)
      as [[EC Count] C1].
    destruct (failed EC); [exact HI|].
    eapply extends_trace_trans; [exact HI|].
    pose proof (extends_trace_readBytes C1 (to_unsigned Count)) as Hread.
    destruct (readBytes C1 (to_unsigned Count)) as [[EC' data] C2].
    exact Hread.
  - intros ArgTs IH C V. apply IH.
  - intros T IH C V. change (deserialize host (SVector T) C V)
      with (deserialize_vector host (deserialize host T) (value_init T) C V).
    unfold deserialize_vector.
    pose proof (deserialize_int_reads_only uint64_t C 0) as HI.
    destruct (deserialize_int host uint64_t C 0) as [[EC Count] C1].
    destruct (failed EC); [exact HI|].
    eapply extends_trace_trans; [exact HI|]. clear HI.
    match goal with
    | |- context [deserialize_elements _ C1 ?l] => generalize l
    end.
    clear V. intros V. revert C1.
    induction V as [|E V IHV]; intros C1; cbn [deserialize_elements].
    + apply extends_trace_refl.
    + pose proof (IH C1 E) as HE.
      destruct (deserialize host T C1 E) as [[EC' E'] C2].
      destruct (failed EC'); [exact HE|].
      specialize (IHV C2).
      destruct (deserialize_elements _ C2 V) as [[EC'' V'] C3].
      eapply extends_trace_trans; [exact HE|exact IHV].
  - intros C Args. apply extends_trace_refl.
  - intros T IHT Ts IHTs C [Arg Args]. rewrite deserializeSeq_cons.
    pose proof (IHT C Arg) as HT.
    destruct (deserialize host T C Arg) as [[EC Arg'] C1].
    destruct (failed EC); [exact HT|].
    specialize (IHTs C1 Args).
    destruct (deserializeSeq host Ts C1 Args) as [[EC' Args'] C2].
    eapply extends_trace_trans; [exact HT|exact IHTs].
Qed.

(** On whatever channel and whatever the outcome, [serialize] and
    [serializeSeq] call nothing but [appendBytes], and [deserialize] and
    [deserializeSeq] nothing but [readBytes]: no codec reads while it
    writes, writes while it reads, or flushes the stream with [send]. *)
Theorem codecs_use_one_channel_operation :
  (forall (T : Shape) (C : Traced Ch) (V : Value T),
      extends_trace is_append C (snd (serialize host T C V))
      /\ extends_trace is_read C (snd (deserialize host T C V)))
  /\ (forall (Ts : Pack) (C : Traced Ch) (Args : Values Ts),
         extends_trace is_append C (snd (serializeSeq host Ts C Args))
         /\ extends_trace is_read C (snd (deserializeSeq host Ts C Args))).
Proof.
  split.
  - intros T C V. split.
    + apply serialize_appends_only.
    + apply deserialize_reads_only.
  - intros Ts C Args. split.
    + apply serialize_appends_only.
    + apply deserialize_reads_only.
Qed.

End Calls_made.

(** ** Integers read from arbitrary bytes *)

Section Integers.

Variable host : bool.

Lemma object_value_in_range (T : IntTy) (bs : list byte) :
  length bs = sizeof T -> in_range T (object_value host T bs) = true.
Proof.
  intros Hlen. apply in_range_spec. unfold object_value.
  set (l := if host then rev bs else bs).
  assert (Hl : length l = sizeof T)
    by (subst l; destruct host; now rewrite ?length_rev).
  pose proof (little_endian_value_range l) as Hu.
  rewrite Hl, <- bits_pow, bits_half in Hu.
  rewrite bits_half.
  destruct (is_signed T); cbn [andb].
  - destruct (Z.leb_spec (2 ^ (bits T - 1)) (little_endian_value l)); lia.
  - lia.
Qed.

Lemma store_object_length (T : IntTy) (V : Z) (data : list byte) :
  length (store (object_bytes host T V) (Z.of_nat (sizeof T)) data) = sizeof T.
Proof.
  rewrite store_length; rewrite object_bytes_length; [reflexivity|lia].
Qed.

(** Whatever the channel delivers, and whether the read succeeds or fails,
    the integer that [deserialize] leaves in [V] is a value of its type. *)
Lemma deserialize_integer_in_range :
  forall (Ch : Type) (RPC : RPCChannel Ch) (T : IntTy) (C : Ch) (V0 : Z),
    in_range T (snd (fst (deserialize host (SInt T) C V0))) = true.
Proof.
  intros Ch RPC T C V0.
  change (deserialize host (SInt T) C V0) with (deserialize_int host T C V0).
  unfold deserialize_int.
  destruct (readBytes C (Z.of_nat (sizeof T))) as [[EC data] C'].
  pose proof (object_value_in_range T
                (store (object_bytes host T V0) (Z.of_nat (sizeof T)) data)
                (store_object_length T V0 data)) as Hin.
  destruct (failed EC); exact Hin.
Qed.

(** Every string of [sizeof(T)] bytes is the encoding of an integer of type
    [T]: reading it from the queue succeeds, takes exactly those bytes, and
    the value read serializes back to the same bytes. *)
Theorem integer_bytes_decode_and_encode_back :
  forall (T : IntTy) (bs rest : list byte) (V0 : Z),
    length bs = sizeof T ->
    exists V : Z,
      deserialize host (SInt T) {| Pending := bs ++ rest |} V0
      = (success, V, {| Pending := rest |})
      /\ in_range T V = true
      /\ encode host (SInt T) V = bs.
Proof.
  intros T bs rest V0 Hlen.
  exists (object_value host T bs).
  pose proof (object_value_in_range T bs Hlen) as Hin.
  split; [|split].
  - change (deserialize host (SInt T)) with
      (deserialize_int (Ch := QueueChannel) host T).
    unfold deserialize_int.
    pose proof (Queue_readBytes_front bs rest) as Hread.
    rewrite Hlen in Hread. rewrite Hread, failed_success.
    pose proof (store_exact (object_bytes host T V0) bs) as Hstore.
    rewrite object_bytes_length in Hstore. now rewrite (Hstore Hlen).
  - exact Hin.
  - rewrite encode_int. now apply object_bytes_value.
Qed.

End Integers.

(** ** Enumerations *)

(** An enumeration makes the round trip of its underlying integer: what
    [serialize] appended for the enumerator [V], read back by
    [deserialize], gives [V], whatever the object read into and the local
    [Tmp] held, and the bytes behind it stay on the queue. *)
Theorem enum_round_trip :
  forall (host : bool) (Underlying : IntTy) (V V0 Tmp : Z)
         (q rest : list byte),
    in_range Underlying V = true ->
    exists bs : list byte,
      serialize_enum host Underlying {| Pending := q |} V
      = (success, {| Pending := q ++ bs |})
      /\ deserialize_enum host Underlying Tmp {| Pending := bs ++ rest |} V0
         = (success, V, {| Pending := rest |}).
Proof.
  intros host Underlying V V0 Tmp q rest HV.
  exists (object_bytes host Underlying V). split.
  - unfold serialize_enum. apply (serialize_int_queue host).
  - unfold deserialize_enum.
    now rewrite (deserialize_int_queue host Underlying rest V Tmp HV).
Qed.

(** ** Partial state of a vector *)

Section PartialState.

Variable host : bool.
Context {Ch : Type} `{RPCChannel Ch}.

Lemma deserialize_elements_length {A : Type}
  (deser : Ch -> A -> error_code * A * Ch) (V : list A) (C : Ch) :
  length (snd (fst (deserialize_elements deser C V))) = length V.
Proof.
  revert C. induction V as [|E V IH]; intros C; cbn [deserialize_elements].
  - reflexivity.
  - destruct (deser C E) as [[EC E'] C1].
    destruct (failed EC); [reflexivity|].
    specialize (IH C1).
    destruct (deserialize_elements deser C1 V) as [[EC' V'] C2].
    cbn [fst snd length] in IH |- *. now rewrite IH.
Qed.

(** The declared count is trusted.  Once the count of a vector is read, the
    vector is resized to it before any element is read, so the vector that
    [deserialize] leaves has [Count] elements whether the elements were all
    read or reading one of them failed. *)
Theorem deserialize_vector_has_declared_size :
  forall (T : Shape) (C C1 : Ch) (V : list (Value T)) (Count : Z),
    deserialize_int host uint64_t C 0 = (success, Count, C1) ->
    size (snd (fst (deserialize host (SVector T) C V))) = Count.
Proof.
  intros T C C1 V Count Hcount.
  pose proof (deserialize_int_unsigned host uint64_t C C1 0 Count
                eq_refl Hcount) as Hpos.
  change (deserialize host (SVector T) C V)
    with (deserialize_vector host (deserialize host T) (value_init T) C V).
  unfold deserialize_vector. rewrite Hcount, failed_success.
  pose proof (deserialize_elements_length (deserialize host T)
                (resize V Count (value_init T)) C1) as Hlen.
  rewrite resize_length in Hlen. unfold size.
  transitivity (Z.of_nat (Z.to_nat Count)); [f_equal; exact Hlen|lia].
Qed.

End PartialState.

(** ** Messages on the queue *)

Section Messages.

Variable host : bool.

(** Decoding is self-delimiting: from a queue that holds the encoding of
    [V] followed by any bytes [rest], [deserialize] rebuilds [V] and leaves
    exactly [rest], so values written one after the other are read back one
    after the other. *)
Theorem deserialize_takes_its_own_bytes :
  forall (T : Shape) (V V0 : Value T) (rest : list byte),
    within (2 ^ 32) T V = true ->
    deserialize host T {| Pending := encode host T V ++ rest |} V0
    = (success, V, {| Pending := rest |}).
Proof.
  intros T V V0 rest HV. now apply (proj1 (deserialize_queue host)).
Qed.

(** No encoding is a prefix of another: if the encodings of two values of
    one type, each followed by some bytes, are the same byte string, the
    values are equal and so are the bytes that follow.  In particular
    [encode] is injective. *)
Theorem encoding_is_prefix_free :
  forall (T : Shape) (V V' : Value T) (rest rest' : list byte),
    within (2 ^ 32) T V = true ->
    within (2 ^ 32) T V' = true ->
    encode host T V ++ rest = encode host T V' ++ rest' ->
    V = V' /\ rest = rest'.
Proof.
  intros T V V' rest rest' HV HV' Heq.
  pose proof (proj1 (deserialize_queue host) T V (value_init T) rest HV) as H1.
  pose proof (proj1 (deserialize_queue host) T V' (value_init T) rest' HV')
    as H2.
  rewrite Heq, H2 in H1. injection H1 as -> ->. now split.
Qed.

Lemma app_split (a b p s : list byte) :
  a ++ b = p ++ s -> s <> [] ->
  (exists s1, s1 <> [] /\ a = p ++ s1)
  \/ (exists p', p = a ++ p' /\ b = p' ++ s).
Proof.
  intros Heq Hs. apply app_eq_app in Heq as [l [[Ha Hb]|[Hp Hb]]].
  - destruct l as [|x l].
    + right. exists []. rewrite app_nil_r in Ha. subst. now rewrite app_nil_r.
    + left. exists (x :: l). split; [discriminate|exact Ha].
  - right. now exists l.
Qed.

Lemma Queue_readBytes_short (p : list byte) (Size : Z) :
  size p < Size ->
  readBytes {| Pending := p |} Size = (ChannelError, [], {| Pending := p |}).
Proof.
  intros Hlt. cbn [readBytes QueueChannel_RPCChannel].
  unfold Queue_readBytes. cbn [Pending].
  destruct (Z.leb_spec Size (size p)); [lia|reflexivity].
Qed.

Lemma deserialize_int_short (T : IntTy) (p : list byte) (V0 : Z) :
  (length p < sizeof T)%nat ->
  exists V, deserialize_int host T {| Pending := p |} V0
            = (ChannelError, V, {| Pending := p |}).
Proof.
  intros Hlt. unfold deserialize_int.
  rewrite Queue_readBytes_short by (unfold size; lia).
  eexists. reflexivity.
Qed.

Lemma deserialize_count_truncated (n : Z) (p s rest : list byte) (V0 : Z) :
  0 <= n < 2 ^ 64 ->
  object_bytes host uint64_t n ++ rest = p ++ s -> s <> [] ->
  (exists V, deserialize_int host uint64_t {| Pending := p |} V0
             = (ChannelError, V, {| Pending := p |}))
  \/ (exists p', rest = p' ++ s
                 /\ deserialize_int host uint64_t {| Pending := p |} V0
                    = (success, n, {| Pending := p' |})).
Proof.
  intros Hn Heq Hs. destruct (app_split _ _ _ _ Heq Hs) as [[s1 [Hs1 Ha]]|[p' [Hp Hb]]].
  - left. apply deserialize_int_short.
    apply (f_equal (@length byte)) in Ha.
    rewrite object_bytes_length, length_app in Ha.
    destruct s1; [congruence|]. cbn [length sizeof] in *. lia.
  - right. exists p'. split; [exact Hb|]. subst p.
    apply (deserialize_int_queue host uint64_t). now apply in_range_size.
Qed.

Lemma deserialize_elements_truncated (T : Shape) :
  (forall (V V0 : Value T) (p s : list byte),
      within (2 ^ 32) T V = true ->
      encode host T V = p ++ s -> s <> [] ->
      fst (fst (deserialize host T {| Pending := p |} V0)) = ChannelError) ->
  forall (V V0 : list (Value T)) (p s : list byte),
    forallb (within (2 ^ 32) T) V = true ->
    length V0 = length V ->
    concat (map (encode host T) V) = p ++ s -> s <> [] ->
    fst (fst (deserialize_elements (deserialize host T)
                {| Pending := p |} V0)) = ChannelError.
Proof.
  intros IHT V. induction V as [|E V IH]; intros V0 p s Hall Hlen Heq Hs.
  - cbn in Heq. symmetry in Heq. apply app_eq_nil in Heq as [_ ->].
    now elim Hs.
  - destruct V0 as [|E0 V0]; [discriminate|].
    cbn [forallb] in Hall. apply andb_true_iff in Hall as [HE Hall].
    cbn [map concat] in Heq. cbn [deserialize_elements].
    destruct (app_split _ _ _ _ Heq Hs) as [[s1 [Hs1 Ha]]|[p' [Hp Hb]]].
    + pose proof (IHT E E0 p s1 HE Ha Hs1) as Hfail.
      destruct (deserialize host T {| Pending := p |} E0) as [[EC E'] C1].
      cbn [fst] in Hfail. subst EC. reflexivity.
    + subst p.
      rewrite (proj1 (deserialize_queue host) T E E0 p' HE), failed_success.
      assert (Hlen' : length V0 = length V) by (cbn in Hlen; lia).
      specialize (IH V0 p' s Hall Hlen' Hb Hs).
      destruct (deserialize_elements _ {| Pending := p' |} V0)
        as [[EC V'] C2].
      exact IH.
Qed.

Lemma deserialize_truncated :
  (forall (T : Shape) (V V0 : Value T) (p s : list byte),
      within (2 ^ 32) T V = true ->
      encode host T V = p ++ s -> s <> [] ->
      fst (fst (deserialize host T {| Pending := p |} V0)) = ChannelError)
  /\ (forall (Ts : Pack) (Args Args0 : Values Ts) (p s : list byte),
         all_within (2 ^ 32) Ts Args = true ->
         encodeSeq host Ts Args = p ++ s -> s <> [] ->
         fst (fst (deserializeSeq host Ts {| Pending := p |} Args0))
         = ChannelError).
Proof.
  apply Shape_Pack_ind.
  - intros T V V0 p s _ Heq Hs. rewrite encode_int in Heq.
    destruct (deserialize_int_short T p V0) as [V' HV'].
    + apply (f_equal (@length byte)) in Heq.
      rewrite object_bytes_length, length_app in Heq.
      destruct s; [congruence|]. cbn [length] in Heq. lia.
    + change (deserialize host (SInt T)) with
        (deserialize_int (Ch := QueueChannel) host T).
      now rewrite HV'.
  - intros V V0 p s _ Heq Hs. rewrite encode_bool in Heq.
    destruct p as [|b p].
    + reflexivity.
    + destruct s; [congruence|].
      apply (f_equal (@length byte)) in Heq.
      rewrite length_app in Heq. cbn [length] in Heq. lia.
  - intros S S0 p s HS Heq Hs.
    change (within (2 ^ 32) SString S) with (size S <? 2 ^ 32) in HS.
    apply Z.ltb_lt in HS. pose proof (size_nonneg S) as Hpos.
    rewrite encode_string in Heq. unfold to_unsigned in Heq.
    rewrite (Z.mod_small (size S)) in Heq by lia.
    unfold size in Heq at 2. rewrite range_all in Heq.
    change (deserialize host SString) with
      (deserialize_string (Ch := QueueChannel) host).
    unfold deserialize_string.
    destruct (deserialize_count_truncated (size S) p s S uninitialised)
      as [[V' HV']|[p' [HS' HV']]]; [lia|exact Heq|exact Hs| |];
      rewrite HV'.
    + reflexivity.
    + rewrite failed_success. unfold to_unsigned.
      rewrite (Z.mod_small (size S)) by lia.
      rewrite Queue_readBytes_short; [reflexivity|].
      subst S. unfold size. rewrite length_app.
      destruct s; [congruence|]. cbn [length]. lia.
  - intros ArgTs IH V V0 p s HV Heq Hs. now apply (IH V V0 p s).
  - intros T IH V V0 p s HV Heq Hs.
    change (within (2 ^ 32) (SVector T) V)
      with ((size V <? 2 ^ 64) && forallb (within (2 ^ 32) T) V) in HV.
    apply andb_true_iff in HV as [Hsize Hall]. apply Z.ltb_lt in Hsize.
    pose proof (size_nonneg V) as Hpos.
    rewrite encode_vector in Heq.
    change (deserialize host (SVector T))
      with (deserialize_vector (Ch := QueueChannel) host
              (deserialize host T) (value_init T)).
    unfold deserialize_vector.
    destruct (deserialize_count_truncated (size V) p s
                (concat (map (encode host T) V)) 0)
      as [[V' HV']|[p' [HS' HV']]];
      [split; [exact Hpos|exact Hsize]|exact Heq|exact Hs| |];
      rewrite HV'.
    + reflexivity.
    + rewrite failed_success.
      apply (deserialize_elements_truncated T IH V _ p' s Hall);
        [|exact HS'|exact Hs].
      rewrite resize_length. unfold size. apply Nat2Z.id.
  - intros [] [] p s _ Heq Hs. cbn in Heq. symmetry in Heq.
    apply app_eq_nil in Heq as [_ ->]. now elim Hs.
  - intros T IHT Ts IHTs [Arg Args] [Arg0 Args0] p s HV Heq Hs.
    change (all_within (2 ^ 32) (PCons T Ts) (Arg, Args))
      with (within (2 ^ 32) T Arg && all_within (2 ^ 32) Ts Args) in HV.
    apply andb_true_iff in HV as [HArg HArgs].
    rewrite encodeSeq_cons in Heq. rewrite deserializeSeq_cons.
    destruct (app_split _ _ _ _ Heq Hs) as [[s1 [Hs1 Ha]]|[p' [Hp Hb]]].
    + pose proof (IHT Arg Arg0 p s1 HArg Ha Hs1) as Hfail.
      destruct (deserialize host T {| Pending := p |} Arg0) as [[EC A'] C1].
      cbn [fst] in Hfail. subst EC. reflexivity.
    + subst p.
      rewrite (proj1 (deserialize_queue host) T Arg Arg0 p' HArg),
        failed_success.
      specialize (IHTs Args Args0 p' s HArgs Hb Hs).
      destruct (deserializeSeq host Ts {| Pending := p' |} Args0)
        as [[EC A'] C2].
      exact IHTs.
Qed.

(** A message cut short is never taken for a message: from a queue that
    holds a proper prefix of the encoding of [V], [deserialize] fails with
    the error of the queue that ran dry. *)
Theorem truncated_encoding_is_rejected :
  forall (T : Shape) (V V0 : Value T) (p s : list byte),
    within (2 ^ 32) T V = true ->
    encode host T V = p ++ s ->
    s <> [] ->
    fst (decode host T V0 p) = ChannelError.
Proof.
  intros T V V0 p s HV Heq Hs. unfold decode.
  now apply (proj1 deserialize_truncated T V V0 p s).
Qed.

Lemma range_store (Dst data : list byte) (k : Z) :
  length data = Z.to_nat k -> range (store Dst k data) k = data.
Proof.
  intros Hlen. unfold range, store.
  rewrite (firstn_all2 (n := Z.to_nat k) data) by lia.
  rewrite firstn_app, firstn_all2 by lia.
  rewrite <- Hlen, Nat.sub_diag, firstn_O. apply app_nil_r.
Qed.

(** A string of [2 ^ 32] bytes or more loses bytes but not the framing:
    the reader takes from the queue exactly the bytes the writer put there
    and leaves what follows, and the string it builds has the declared size
    and starts with the bytes that were sent. *)
Theorem long_string_keeps_stream_in_step :
  forall (S S0 rest : list byte),
    size S < 2 ^ 64 ->
    exists S' : list byte,
      deserialize host SString {| Pending := encode host SString S ++ rest |}
        S0
      = (success, S', {| Pending := rest |})
      /\ size S' = size S
      /\ range S' (size S mod 2 ^ 32) = range S (size S mod 2 ^ 32).
Proof.
  intros S S0 rest Hsize. pose proof (size_nonneg S) as Hpos.
  pose proof (to_unsigned_range (size S)) as Hr.
  pose proof (to_unsigned_le (size S) Hpos) as Hle.
  set (k := to_unsigned (size S)) in *.
  assert (Hk : Z.of_nat (length (range S k)) = k)
    by (apply (range_size S k); lia).
  exists (store (resize S0 (size S) x00) k (range S k)).
  split; [|split].
  - rewrite encode_string. fold k.
    change (deserialize host SString) with
      (deserialize_string (Ch := QueueChannel) host).
    unfold deserialize_string. rewrite <- app_assoc.
    rewrite (deserialize_int_queue host uint64_t) by (apply in_range_size; lia).
    rewrite failed_success. fold k.
    pose proof (Queue_readBytes_front (range S k) rest) as Hread.
    rewrite Hk in Hread. now rewrite Hread.
  - unfold size at 1. rewrite store_length; rewrite resize_length; lia.
  - change (size S mod 2 ^ 32) with k. apply range_store. lia.
Qed.

End Messages.

(** ** Containers and integer types on the wire *)

Section Containers.

Variable host : bool.

(** Strings and vectors are length-prefixed.  The bytes of a vector are the
    eight bytes of its size as a [uint64_t] followed by the bytes of its
    elements in order, with nothing between them; the bytes of a string
    shorter than [2 ^ 32] bytes are the eight bytes of its size followed by
    the string itself. *)
Theorem containers_are_length_prefixed :
  (forall (T : Shape) (V : list (Value T)),
      encode host (SVector T) V
      = encode host (SInt uint64_t) (size V)
        ++ concat (map (encode host T) V))
  /\ (forall S : list byte,
         size S < 2 ^ 32 ->
         encode host SString S = encode host (SInt uint64_t) (size S) ++ S)
  /\ (forall n : Z, length (encode host (SInt uint64_t) n) = 8%nat).
Proof.
  split; [|split].
  - intros T V. now rewrite encode_vector, encode_int.
  - intros S Hlt. pose proof (size_nonneg S) as Hpos.
    rewrite encode_string, encode_int. unfold to_unsigned.
    rewrite Z.mod_small by lia. unfold size. now rewrite range_all.
  - intros n. rewrite encode_int. apply object_bytes_length.
Qed.

(** The signed and the unsigned type of one width share their encoding:
    what was serialized as a value [V] of an integer type [T], read as the
    unsigned type [U] of the same size, is [V] modulo [2 ^ bits], that is
    [V] itself when [V] is not negative and [V + 2 ^ bits] when it is. *)
Theorem integer_read_as_unsigned :
  forall (T U : IntTy) (V V0 : Z) (rest : list byte),
    sizeof T = sizeof U ->
    is_signed U = false ->
    deserialize host (SInt U)
      {| Pending := encode host (SInt T) V ++ rest |} V0
    = (success, V mod 2 ^ bits U, {| Pending := rest |}).
Proof.
  intros T U V V0 rest Hsize Hunsigned.
  rewrite encode_int, (object_bytes_mod host T U V Hsize).
  apply (deserialize_int_queue host U).
  apply in_range_spec. rewrite Hunsigned.
  apply Z.mod_pos_bound. apply Z.pow_pos_nonneg; [lia|].
  unfold bits. lia.
Qed.

End Containers.

(** ** The further properties at work *)

Lemma containers_are_length_prefixed_witness :
  size [x61; x62] < 2 ^ 32
  /\ encode false SString [x61; x62]
     = encode false (SInt uint64_t) (size [x61; x62]) ++ [x61; x62].
Proof.
  split; [reflexivity|].
  apply (proj1 (proj2 (containers_are_length_prefixed false)) [x61; x62]).
  reflexivity.
Defined.

Lemma integer_read_as_unsigned_witness :
  sizeof int16_t = sizeof uint16_t
  /\ is_signed uint16_t = false
  /\ deserialize true (SInt uint16_t)
       {| Pending := encode true (SInt int16_t) (-2) ++ [x05] |} 0
     = (success, (-2) mod 2 ^ bits uint16_t, {| Pending := [x05] |}).
Proof.
  split; [reflexivity|]. split; [reflexivity|].
  apply (integer_read_as_unsigned true int16_t uint16_t (-2) 0 [x05]);
    reflexivity.
Defined.

Lemma serialize_string_count_then_payload_witness :
  size [x61; x62] < 2 ^ 32
  /\ range [x61; x62] (size [x61; x62] mod 2 ^ 32) = [x61; x62].
Proof.
  split; [reflexivity|].
  apply (proj1 (proj2 (proj2 (serialize_string_count_then_payload false
                                {| Pending := [] |} [x61; x62])))).
  reflexivity.
Defined.

Lemma serialize_errors_come_from_appendBytes_witness :
  failed (fst (serialize false (SVector (SInt uint8_t))
                 {| Stream := []; Capacity := 8 |} [1; 2])) = true
  /\ exists (C0 : BoundedChannel) (Src : list byte),
       fst (appendBytes C0 Src)
       = fst (serialize false (SVector (SInt uint8_t))
                {| Stream := []; Capacity := 8 |} [1; 2]).
Proof.
  split; [reflexivity|].
  apply (serialize_errors_come_from_appendBytes false
           (SVector (SInt uint8_t)) {| Stream := []; Capacity := 8 |} [1; 2]).
  reflexivity.
Defined.

Lemma serialize_vector_stops_at_first_error_witness :
  serialize false (SInt uint64_t) {| Stream := []; Capacity := 9 |}
    (size [1; 2; 3])
  = (success,
     {| Stream := [x03; x00; x00; x00; x00; x00; x00; x00]; Capacity := 9 |})
  /\ failed success = false
  /\ all_succeed [fun C => serialize false (SInt uint8_t) C 1]
       {| Stream := [x03; x00; x00; x00; x00; x00; x00; x00]; Capacity := 9 |}
     = Some {| Stream := [x03; x00; x00; x00; x00; x00; x00; x00; x01];
               Capacity := 9 |}
  /\ serialize false (SInt uint8_t)
       {| Stream := [x03; x00; x00; x00; x00; x00; x00; x00; x01];
          Capacity := 9 |} 2
     = (ChannelError,
        {| Stream := [x03; x00; x00; x00; x00; x00; x00; x00; x01];
           Capacity := 9 |})
  /\ serialize false (SVector (SInt uint8_t))
       {| Stream := []; Capacity := 9 |} [1; 2; 3]
     = (ChannelError,
        {| Stream := [x03; x00; x00; x00; x00; x00; x00; x00; x01];
           Capacity := 9 |}).
Proof.
  do 4 (split; [reflexivity|]).
  refine (proj2 (serialize_vector_stops_at_first_error false (SInt uint8_t)
                   {| Stream := []; Capacity := 9 |}
                   {| Stream := [x03; x00; x00; x00; x00; x00; x00; x00];
                      Capacity := 9 |}
                   [1; 2; 3] success _)
            [1] [3] 2
            {| Stream := [x03; x00; x00; x00; x00; x00; x00; x00; x01];
               Capacity := 9 |}
            {| Stream := [x03; x00; x00; x00; x00; x00; x00; x00; x01];
               Capacity := 9 |}
            ChannelError _ _ _ _ _); reflexivity.
Defined.

Lemma integer_bytes_decode_and_encode_back_witness :
  length [xff; xfe] = sizeof int16_t
  /\ exists V : Z,
       deserialize false (SInt int16_t) {| Pending := [xff; xfe] ++ [x07] |} 0
       = (success, V, {| Pending := [x07] |})
       /\ in_range int16_t V = true
       /\ encode false (SInt int16_t) V = [xff; xfe].
Proof.
  split; [reflexivity|].
  apply (integer_bytes_decode_and_encode_back false int16_t [xff; xfe] [x07] 0).
  reflexivity.
Defined.

Lemma enum_round_trip_witness :
  in_range uint32_t 3 = true
  /\ exists bs : list byte,
       serialize_enum true uint32_t {| Pending := [x09] |} 3
       = (success, {| Pending := [x09] ++ bs |})
       /\ deserialize_enum true uint32_t 77 {| Pending := bs ++ [x01] |} 8
          = (success, 3, {| Pending := [x01] |}).
Proof.
  split; [reflexivity|].
  apply (enum_round_trip true uint32_t 3 8 77 [x09] [x01]). reflexivity.
Defined.

Lemma deserialize_vector_has_declared_size_witness :
  deserialize_int false uint64_t
    {| Pending := [x03; x00; x00; x00; x00; x00; x00; x00] |} 0
  = (success, 3, {| Pending := [] |})
  /\ fst (fst (deserialize false (SVector (SInt uint8_t))
                 {| Pending := [x03; x00; x00; x00; x00; x00; x00; x00] |} []))
     = ChannelError
  /\ size (snd (fst (deserialize false (SVector (SInt uint8_t))
                       {| Pending := [x03; x00; x00; x00; x00; x00; x00; x00] |}
                       [])))
     = 3.
Proof.
  split; [reflexivity|]. split; [reflexivity|].
  apply (deserialize_vector_has_declared_size false (SInt uint8_t)
           {| Pending := [x03; x00; x00; x00; x00; x00; x00; x00] |}
           {| Pending := [] |} [] 3).
  reflexivity.
Defined.

Lemma deserialize_takes_its_own_bytes_witness :
  within (2 ^ 32) nested_example [([-1], ([x61], (5, tt)))] = true
  /\ deserialize true nested_example
       {| Pending := encode true nested_example [([-1], ([x61], (5, tt)))]
                     ++ [x2a; x2b] |} []
     = (success, [([-1], ([x61], (5, tt)))], {| Pending := [x2a; x2b] |}).
Proof.
  split; [reflexivity|].
  apply (deserialize_takes_its_own_bytes true nested_example). reflexivity.
Defined.

Lemma encoding_is_prefix_free_witness :
  within (2 ^ 32) SString [x61] = true
  /\ encode false SString [x61] ++ [x62] = encode false SString [x61] ++ [x62]
  /\ ([x61] = [x61] /\ [x62] = [x62]).
Proof.
  split; [reflexivity|]. split; [reflexivity|].
  apply (encoding_is_prefix_free false SString [x61] [x61] [x62] [x62]);
    reflexivity.
Defined.

Lemma truncated_encoding_is_rejected_witness :
  within (2 ^ 32) (SVector SString) [[x61; x62]; [x63]] = true
  /\ encode false (SVector SString) [[x61; x62]; [x63]]
     = [x02; x00; x00; x00; x00; x00; x00; x00;
        x02; x00; x00; x00; x00; x00; x00; x00; x61; x62;
        x01; x00; x00; x00; x00; x00; x00; x00]
       ++ [x63]
  /\ [x63] <> []
  /\ fst (decode false (SVector SString) []
            [x02; x00; x00; x00; x00; x00; x00; x00;
             x02; x00; x00; x00; x00; x00; x00; x00; x61; x62;
             x01; x00; x00; x00; x00; x00; x00; x00])
     = ChannelError.
Proof.
  split; [reflexivity|]. split; [reflexivity|]. split; [discriminate|].
  apply (truncated_encoding_is_rejected false (SVector SString)
           [[x61; x62]; [x63]] [] _ [x63]).
  - reflexivity.
  - reflexivity.
  - discriminate.
Defined.

Lemma long_string_keeps_stream_in_step_witness :
  size [x61; x62] < 2 ^ 64
  /\ exists S' : list byte,
       deserialize false SString
         {| Pending := encode false SString [x61; x62] ++ [x07] |} [x00]
       = (success, S', {| Pending := [x07] |})
       /\ size S' = size [x61; x62]
       /\ range S' (size [x61; x62] mod 2 ^ 32)
          = range [x61; x62] (size [x61; x62] mod 2 ^ 32).
Proof.
  split; [reflexivity|].
  apply (long_string_keeps_stream_in_step false [x61; x62] [x00] [x07]).
  reflexivity.
Defined.

(** ** Message framing *)

Module FramingFacts.

Import Framing.

Ltac unfold_framing :=
  unfold startSendMessage, endSendMessage, startReceiveMessage,
    endReceiveMessage, getWriteLock, getReadLock.

(** Case analysis on the owner tests of [lock] and [unlock], one test at a
    time as evaluation uncovers them. *)
Ltac eqb_cases :=
  repeat (cbn;
          repeat match goal with
                 | E : Nat.eqb _ _ = _ |- _ => rewrite E
                 end;
          match goal with
          | |- context [Nat.eqb ?a ?b] => destruct (Nat.eqb a b) eqn:?
          end);
  cbn;
  repeat match goal with
         | E : Nat.eqb _ _ = _ |- _ => rewrite E; cbn
         end.

Lemma then_success_returns (C : Locks) (set : Locks -> mutex -> Locks)
  (o : Outcome mutex) (EC : error_code) (C' : Locks) :
  then_success C set o = Returns (EC, C') -> EC = success.
Proof.
  destruct o; cbn; intros Heq; inversion Heq. reflexivity.
Qed.

(** C9. None of [startSendMessage], [endSendMessage],
    [startReceiveMessage] and [endReceiveMessage] reports a failure: in
    every state of the locks and for every calling thread, a call that
    returns returns [std::error_code()].  And the calls do return: the two
    [start] functions when the lock is free, taking it, and the two [end]
    functions when the caller holds the lock, releasing it. *)
Theorem framing_returns_success :
  forall (t : ThreadId) (C : Locks),
    (forall (f : Call) (EC : error_code) (C' : Locks),
        call f t C = Returns (EC, C') -> EC = success)
    /\ (writeLock C = None ->
        startSendMessage t C = Returns (success, setWriteLock C (Some t)))
    /\ (writeLock C = Some t ->
        endSendMessage t C = Returns (success, setWriteLock C None))
    /\ (readLock C = None ->
        startReceiveMessage t C = Returns (success, setReadLock C (Some t)))
    /\ (readLock C = Some t ->
        endReceiveMessage t C = Returns (success, setReadLock C None)).
Proof.
  intros t C. split; [|repeat split].
  - intros f EC C'. destruct f; cbn [call]; unfold_framing;
      apply then_success_returns.
  - intros E. unfold_framing. now rewrite E.
  - intros E. unfold_framing. rewrite E. cbn. now rewrite Nat.eqb_refl.
  - intros E. unfold_framing. now rewrite E.
  - intros E. unfold_framing. rewrite E. cbn. now rewrite Nat.eqb_refl.
Qed.

Lemma framing_returns_success_witness :
  writeLock unheld = None
  /\ startSendMessage 1%nat unheld
     = Returns (success, setWriteLock unheld (Some 1%nat))
  /\ writeLock (setWriteLock unheld (Some 1%nat)) = Some 1%nat
  /\ endSendMessage 1%nat (setWriteLock unheld (Some 1%nat))
     = Returns (success, setWriteLock (setWriteLock unheld (Some 1%nat)) None).
Proof.
  split; [reflexivity|]. split.
  - apply (proj1 (proj2 (framing_returns_success 1%nat unheld))).
    reflexivity.
  - split; [reflexivity|].
    apply (proj1 (proj2 (proj2 (framing_returns_success 1%nat
                                  (setWriteLock unheld (Some 1%nat)))))).
    reflexivity.
Defined.

Lemma run_app (C : Locks) (h1 h2 : list (ThreadId * Call)) :
  run C (h1 ++ h2)
  = match run C h1 with Some C1 => run C1 h2 | None => None end.
Proof.
  revert C. induction h1 as [|[t f] h1 IH]; intros C; [reflexivity|].
  cbn [app run]. destruct (call f t C) as [[EC C1]| |]; [apply IH|reflexivity..].
Qed.

(** What a returning call does to the write lock. *)
Lemma call_writeLock (f : Call) (t : ThreadId) (C C' : Locks)
  (EC : error_code) :
  call f t C = Returns (EC, C') ->
  match f with
  | StartSend => writeLock C = None /\ writeLock C' = Some t
  | EndSend => writeLock C = Some t /\ writeLock C' = None
  | _ => writeLock C' = writeLock C
  end.
Proof.
  destruct C as [r w]. destruct f; cbn [call]; unfold_framing;
    cbn [readLock writeLock].
  - destruct w as [o|]; cbn; [destruct (Nat.eqb o t); discriminate|].
    intros Heq. inversion Heq. now split.
  - destruct w as [o|]; cbn; [|discriminate].
    destruct (Nat.eqb_spec o t) as [->|]; [|discriminate].
    intros Heq. inversion Heq. now split.
  - destruct r as [o|]; cbn; [destruct (Nat.eqb o t); discriminate|].
    intros Heq. now inversion Heq.
  - destruct r as [o|]; cbn; [|discriminate].
    destruct (Nat.eqb o t); [|discriminate].
    intros Heq. now inversion Heq.
Qed.

(** The holder keeps the write lock until its own [endSendMessage]. *)
Lemma writeLock_kept (h : list (ThreadId * Call)) (C C' : Locks)
  (t : ThreadId) :
  run C h = Some C' ->
  writeLock C = Some t ->
  ~ In (t, EndSend) h ->
  writeLock C' = Some t.
Proof.
  revert C. induction h as [|[t' f] h IH]; intros C Hrun Hheld Hnot.
  - cbn in Hrun. now injection Hrun as <-.
  - cbn [run] in Hrun.
    destruct (call f t' C) as [[EC C1]| |] eqn:Hcall; try discriminate.
    apply call_writeLock in Hcall.
    apply (IH C1 Hrun); [|intros Hin; apply Hnot; now right].
    destruct f.
    + destruct Hcall as [Hfree _]. congruence.
    + destruct Hcall as [Hown _].
      exfalso. apply Hnot. left. congruence.
    + congruence.
    + congruence.
Qed.

(** A thread is inside a send section exactly when it holds the write
    lock. *)
Lemma sending_holder (h : list (ThreadId * Call)) (C C' : Locks)
  (now : ThreadId -> bool) :
  run C h = Some C' ->
  (forall t, now t = true <-> writeLock C = Some t) ->
  forall t, sending t h (now t) = true <-> writeLock C' = Some t.
Proof.
  revert C now. induction h as [|[t' f] h IH]; intros C now Hrun Hinv t.
  - cbn in Hrun |- *. injection Hrun as <-. apply Hinv.
  - cbn [run] in Hrun.
    destruct (call f t' C) as [[EC C1]| |] eqn:Hcall; try discriminate.
    apply call_writeLock in Hcall.
    set (now' := fun u : ThreadId =>
                   if Nat.eqb t' u then
                     match f with
                     | StartSend => true
                     | EndSend => false
                     | _ => now u
                     end
                   else now u).
    assert (Hstep : sending t ((t', f) :: h) (now t) = sending t h (now' t)).
    { cbn [sending]. subst now'. cbn beta.
      destruct (Nat.eqb t' t); [destruct f|]; reflexivity. }
    rewrite Hstep. apply (IH C1 now' Hrun). clear t Hstep.
    intros u. subst now'. cbn beta.
    destruct (Nat.eqb_spec t' u) as [->|Hne].
    + destruct f.
      * destruct Hcall as [_ ->]. tauto.
      * destruct Hcall as [_ ->]. split; discriminate.
      * rewrite Hcall. apply Hinv.
      * rewrite Hcall. apply Hinv.
    + destruct f.
      * destruct Hcall as [Hfree ->]. rewrite Hinv, Hfree.
        split; [discriminate|congruence].
      * destruct Hcall as [Hown ->]. rewrite Hinv, Hown.
        split; [congruence|discriminate].
      * rewrite Hcall. apply Hinv.
      * rewrite Hcall. apply Hinv.
Qed.

(** C10. While a thread holds the write lock, [startSendMessage] called by
    another thread blocks.  In a run of the threads of one channel, between
    the return of [startSendMessage] in thread [t1] and a later return of
    [startSendMessage] in any thread there is a return of [endSendMessage]
    in [t1].  Hence, from the state in which both locks are unheld, two
    threads that are both inside a send section are the same thread. *)
Theorem send_sections_exclude_each_other :
  (forall (C : Locks) (t1 t2 : ThreadId),
      writeLock C = Some t1 -> t2 <> t1 -> startSendMessage t2 C = Blocks)
  /\ (forall (C0 C : Locks) (h1 h2 : list (ThreadId * Call))
             (t1 t2 : ThreadId),
         run C0 (h1 ++ (t1, StartSend) :: h2 ++ [(t2, StartSend)]) = Some C ->
         In (t1, EndSend) h2)
  /\ (forall (h : list (ThreadId * Call)) (C : Locks) (t1 t2 : ThreadId),
         run unheld h = Some C ->
         sending t1 h false = true ->
         sending t2 h false = true ->
         t1 = t2).
Proof.
  split; [|split].
  - intros C t1 t2 Hheld Hne. unfold_framing. rewrite Hheld. cbn.
    destruct (Nat.eqb_spec t1 t2); [congruence|reflexivity].
  - intros C0 C h1 h2 t1 t2 Hrun.
    rewrite run_app in Hrun.
    destruct (run C0 h1) as [Ca|]; [|discriminate].
    cbn [run] in Hrun.
    destruct (call StartSend t1 Ca) as [[EC Cb]| |] eqn:Hcall;
      try discriminate.
    apply call_writeLock in Hcall. destruct Hcall as [_ Hheld].
    rewrite run_app in Hrun.
    destruct (run Cb h2) as [Cc|] eqn:Hmid; [|discriminate].
    cbn [run] in Hrun.
    destruct (call StartSend t2 Cc) as [[EC' Cd]| |] eqn:Hcall';
      try discriminate.
    apply call_writeLock in Hcall'. destruct Hcall' as [Hfree _].
    destruct (in_dec (fun x y : ThreadId * Call =>
                        ltac:(decide equality; [decide equality
                                               |apply Nat.eq_dec])
                        : {x = y} + {x <> y})
                (t1, EndSend) h2) as [Hin|Hnot]; [exact Hin|].
    pose proof (writeLock_kept h2 Cb Cc t1 Hmid Hheld Hnot). congruence.
  - intros h C t1 t2 Hrun H1 H2.
    pose proof (sending_holder h unheld C (fun _ => false) Hrun) as Hinv.
    assert (Hinit : forall t, false = true <-> writeLock unheld = Some t)
      by (intros t; split; discriminate).
    apply (Hinv Hinit) in H1. apply (Hinv Hinit) in H2. congruence.
Qed.

Lemma send_sections_exclude_each_other_witness :
  run unheld
    ([] ++ (1%nat, StartSend)
        :: [(2%nat, StartReceive); (1%nat, EndSend)] ++ [(2%nat, StartSend)])
  = Some {| readLock := Some 2%nat; writeLock := Some 2%nat |}
  /\ In (1%nat, EndSend) [(2%nat, StartReceive); (1%nat, EndSend)].
Proof.
  split; [reflexivity|].
  apply (proj1 (proj2 send_sections_exclude_each_other)
           unheld {| readLock := Some 2%nat; writeLock := Some 2%nat |}
           [] [(2%nat, StartReceive); (1%nat, EndSend)] 1%nat 2%nat).
  reflexivity.
Defined.

(** ** The receive direction, and the two directions together *)

(** What a returning call does to the read lock. *)
Lemma call_readLock (f : Call) (t : ThreadId) (C C' : Locks)
  (EC : error_code) :
  call f t C = Returns (EC, C') ->
  match f with
  | StartReceive => readLock C = None /\ readLock C' = Some t
  | EndReceive => readLock C = Some t /\ readLock C' = None
  | _ => readLock C' = readLock C
  end.
Proof.
  destruct C as [r w]. destruct f; cbn [call]; unfold_framing;
    cbn [readLock writeLock].
  - destruct w as [o|]; cbn; [destruct (Nat.eqb o t); discriminate|].
    intros Heq. now inversion Heq.
  - destruct w as [o|]; cbn; [|discriminate].
    destruct (Nat.eqb o t); [|discriminate].
    intros Heq. now inversion Heq.
  - destruct r as [o|]; cbn; [destruct (Nat.eqb o t); discriminate|].
    intros Heq. inversion Heq. now split.
  - destruct r as [o|]; cbn; [|discriminate].
    destruct (Nat.eqb_spec o t) as [->|]; [|discriminate].
    intros Heq. inversion Heq. now split.
Qed.

Lemma readLock_kept (h : list (ThreadId * Call)) (C C' : Locks)
  (t : ThreadId) :
  run C h = Some C' ->
  readLock C = Some t ->
  ~ In (t, EndReceive) h ->
  readLock C' = Some t.
Proof.
  revert C. induction h as [|[t' f] h IH]; intros C Hrun Hheld Hnot.
  - cbn in Hrun. now injection Hrun as <-.
  - cbn [run] in Hrun.
    destruct (call f t' C) as [[EC C1]| |] eqn:Hcall; try discriminate.
    apply call_readLock in Hcall.
    apply (IH C1 Hrun); [|intros Hin; apply Hnot; now right].
    destruct f.
    + congruence.
    + congruence.
    + destruct Hcall as [Hfree _]. congruence.
    + destruct Hcall as [Hown _].
      exfalso. apply Hnot. left. congruence.
Qed.

Lemma receiving_holder (h : list (ThreadId * Call)) (C C' : Locks)
  (now : ThreadId -> bool) :
  run C h = Some C' ->
  (forall t, now t = true <-> readLock C = Some t) ->
  forall t, receiving t h (now t) = true <-> readLock C' = Some t.
Proof.
  revert C now. induction h as [|[t' f] h IH]; intros C now Hrun Hinv t.
  - cbn in Hrun |- *. injection Hrun as <-. apply Hinv.
  - cbn [run] in Hrun.
    destruct (call f t' C) as [[EC C1]| |] eqn:Hcall; try discriminate.
    apply call_readLock in Hcall.
    set (now' := fun u : ThreadId =>
                   if Nat.eqb t' u then
                     match f with
                     | StartReceive => true
                     | EndReceive => false
                     | _ => now u
                     end
                   else now u).
    assert (Hstep : receiving t ((t', f) :: h) (now t)
                    = receiving t h (now' t)).
    { cbn [receiving]. subst now'. cbn beta.
      destruct (Nat.eqb t' t); [destruct f|]; reflexivity. }
    rewrite Hstep. apply (IH C1 now' Hrun). clear t Hstep.
    intros u. subst now'. cbn beta.
    destruct (Nat.eqb_spec t' u) as [->|Hne].
    + destruct f.
      * rewrite Hcall. apply Hinv.
      * rewrite Hcall. apply Hinv.
      * destruct Hcall as [_ ->]. tauto.
      * destruct Hcall as [_ ->]. split; discriminate.
    + destruct f.
      * rewrite Hcall. apply Hinv.
      * rewrite Hcall. apply Hinv.
      * destruct Hcall as [Hfree ->]. rewrite Hinv, Hfree.
        split; [discriminate|congruence].
      * destruct Hcall as [Hown ->]. rewrite Hinv, Hown.
        split; [congruence|discriminate].
Qed.

(** Receive sections exclude each other as send sections do:
    [startReceiveMessage] blocks while another thread holds the read lock,
    between two returns of [startReceiveMessage] lies a return of
    [endReceiveMessage] in the thread that held the lock, and from the state
    with both locks unheld two threads inside a receive section are the same
    thread. *)
Theorem receive_sections_exclude_each_other :
  (forall (C : Locks) (t1 t2 : ThreadId),
      readLock C = Some t1 -> t2 <> t1 -> startReceiveMessage t2 C = Blocks)
  /\ (forall (C0 C : Locks) (h1 h2 : list (ThreadId * Call))
             (t1 t2 : ThreadId),
         run C0 (h1 ++ (t1, StartReceive) :: h2 ++ [(t2, StartReceive)])
         = Some C ->
         In (t1, EndReceive) h2)
  /\ (forall (h : list (ThreadId * Call)) (C : Locks) (t1 t2 : ThreadId),
         run unheld h = Some C ->
         receiving t1 h false = true ->
         receiving t2 h false = true ->
         t1 = t2).
Proof.
  split; [|split].
  - intros C t1 t2 Hheld Hne. unfold_framing. rewrite Hheld. cbn.
    destruct (Nat.eqb_spec t1 t2); [congruence|reflexivity].
  - intros C0 C h1 h2 t1 t2 Hrun.
    rewrite run_app in Hrun.
    destruct (run C0 h1) as [Ca|]; [|discriminate].
    cbn [run] in Hrun.
    destruct (call StartReceive t1 Ca) as [[EC Cb]| |] eqn:Hcall;
      try discriminate.
    apply call_readLock in Hcall. destruct Hcall as [_ Hheld].
    rewrite run_app in Hrun.
    destruct (run Cb h2) as [Cc|] eqn:Hmid; [|discriminate].
    cbn [run] in Hrun.
    destruct (call StartReceive t2 Cc) as [[EC' Cd]| |] eqn:Hcall';
      try discriminate.
    apply call_readLock in Hcall'. destruct Hcall' as [Hfree _].
    destruct (in_dec (fun x y : ThreadId * Call =>
                        ltac:(decide equality; [decide equality
                                               |apply Nat.eq_dec])
                        : {x = y} + {x <> y})
                (t1, EndReceive) h2) as [Hin|Hnot]; [exact Hin|].
    pose proof (readLock_kept h2 Cb Cc t1 Hmid Hheld Hnot). congruence.
  - intros h C t1 t2 Hrun H1 H2.
    pose proof (receiving_holder h unheld C (fun _ => false) Hrun) as Hinv.
    assert (Hinit : forall t, false = true <-> readLock unheld = Some t)
      by (intros t; split; discriminate).
    apply (Hinv Hinit) in H1. apply (Hinv Hinit) in H2. congruence.
Qed.

Lemma receive_sections_exclude_each_other_witness :
  run unheld
    ([] ++ (1%nat, StartReceive)
        :: [(2%nat, StartSend); (1%nat, EndReceive)] ++ [(2%nat, StartReceive)])
  = Some {| readLock := Some 2%nat; writeLock := Some 2%nat |}
  /\ In (1%nat, EndReceive) [(2%nat, StartSend); (1%nat, EndReceive)].
Proof.
  split; [reflexivity|].
  apply (proj1 (proj2 receive_sections_exclude_each_other)
           unheld {| readLock := Some 2%nat; writeLock := Some 2%nat |}
           [] [(2%nat, StartSend); (1%nat, EndReceive)] 1%nat 2%nat).
  reflexivity.
Defined.

(** The two directions do not see each other.  A call of the send pair and
    a call of the receive pair, made in either order by whatever threads in
    whatever state, have the same outcome; and a send call returns or not
    according to the write lock alone and leaves the read lock as it was,
    so a thread inside a receive section never makes a sender wait. *)
Theorem send_and_receive_are_independent :
  (forall (C : Locks) (t1 t2 : ThreadId) (f g : Call),
      is_send_call f = true ->
      is_send_call g = false ->
      run C [(t1, f); (t2, g)] = run C [(t2, g); (t1, f)])
  /\ (forall (C : Locks) (t1 t2 : ThreadId),
         readLock C = Some t1 ->
         writeLock C = None ->
         startSendMessage t2 C
         = Returns (success,
                    {| readLock := Some t1; writeLock := Some t2 |})).
Proof.
  split.
  - intros [r w] t1 t2 f g Hf Hg.
    destruct f; try discriminate; destruct g; try discriminate;
      cbn [run call]; unfold_framing; cbn [readLock writeLock];
      destruct r as [o|], w as [o'|]; eqb_cases; reflexivity.
  - intros [r w] t1 t2 Hr Hw. cbn [readLock writeLock] in Hr, Hw. subst.
    reflexivity.
Qed.

Lemma send_and_receive_are_independent_witness :
  (is_send_call StartSend = true
   /\ is_send_call EndReceive = false
   /\ run {| readLock := Some 1%nat; writeLock := None |}
        [(2%nat, StartSend); (1%nat, EndReceive)]
      = run {| readLock := Some 1%nat; writeLock := None |}
          [(1%nat, EndReceive); (2%nat, StartSend)])
  /\ (readLock {| readLock := Some 1%nat; writeLock := None |} = Some 1%nat
      /\ writeLock {| readLock := Some 1%nat; writeLock := None |} = None
      /\ startSendMessage 2%nat {| readLock := Some 1%nat; writeLock := None |}
         = Returns (success,
                    {| readLock := Some 1%nat; writeLock := Some 2%nat |})).
Proof.
  split.
  - split; [reflexivity|]. split; [reflexivity|].
    apply (proj1 send_and_receive_are_independent
             {| readLock := Some 1%nat; writeLock := None |}
             2%nat 1%nat StartSend EndReceive); reflexivity.
  - split; [reflexivity|]. split; [reflexivity|].
    apply (proj2 send_and_receive_are_independent
             {| readLock := Some 1%nat; writeLock := None |} 1%nat 2%nat);
      reflexivity.
Defined.

(** After any run from the state with both locks unheld, a lock is held by
    the thread that is inside a section of its direction and by no other:
    the write lock is held by [t] exactly when [t] is inside a send section,
    the read lock exactly when [t] is inside a receive section.  A lock is
    free when no thread is inside a section, and stays held when a section
    is left open. *)
Theorem locks_are_held_by_open_sections :
  forall (h : list (ThreadId * Call)) (C : Locks),
    run unheld h = Some C ->
    (forall t : ThreadId,
        writeLock C = Some t <-> sending t h false = true)
    /\ (forall t : ThreadId,
           readLock C = Some t <-> receiving t h false = true)
    /\ ((forall t : ThreadId, sending t h false = false) ->
        writeLock C = None)
    /\ ((forall t : ThreadId, receiving t h false = false) ->
        readLock C = None).
Proof.
  intros h C Hrun.
  pose proof (sending_holder h unheld C (fun _ => false) Hrun) as Hs.
  pose proof (receiving_holder h unheld C (fun _ => false) Hrun) as Hr.
  assert (Hs0 : forall t, false = true <-> writeLock unheld = Some t)
    by (intros t; split; discriminate).
  assert (Hr0 : forall t, false = true <-> readLock unheld = Some t)
    by (intros t; split; discriminate).
  specialize (Hs Hs0). specialize (Hr Hr0).
  split; [|split; [|split]].
  - intros t. symmetry. apply Hs.
  - intros t. symmetry. apply Hr.
  - intros Hnone. destruct (writeLock C) as [t|] eqn:E; [|reflexivity].
    pose proof (proj2 (Hs t) eq_refl) as Hin. rewrite Hnone in Hin.
    discriminate.
  - intros Hnone. destruct (readLock C) as [t|] eqn:E; [|reflexivity].
    pose proof (proj2 (Hr t) eq_refl) as Hin. rewrite Hnone in Hin.
    discriminate.
Qed.

Lemma locks_are_held_by_open_sections_witness :
  run unheld [(1%nat, StartSend); (2%nat, StartReceive); (2%nat, EndReceive)]
  = Some {| readLock := None; writeLock := Some 1%nat |}
  /\ (writeLock {| readLock := None; writeLock := Some 1%nat |} = Some 1%nat
      <-> sending 1%nat
            [(1%nat, StartSend); (2%nat, StartReceive); (2%nat, EndReceive)]
            false = true).
Proof.
  split; [reflexivity|].
  apply (proj1 (locks_are_held_by_open_sections
                  [(1%nat, StartSend); (2%nat, StartReceive);
                   (2%nat, EndReceive)]
                  {| readLock := None; writeLock := Some 1%nat |} eq_refl)).
Defined.

End FramingFacts.
